(** * transcribe-speech: silence-aware chunking and timeline bookkeeping

    A shallow embedding of [src/transcribe-speech.js]: the split-point
    planner ([calculateOptimalSplitPoints]), the segment extractor
    ([splitAtSpecificPoints]), the time-based fallback ([splitByTime]), the
    planning stage of [splitAtSilence] and the per-chunk transcription loop of
    [transcribeAudio].

    JavaScript numbers are modelled through a small interface [JsNumber]
    holding exactly the operations the planner uses.  It has two instances:
    exact rationals ([Q]), over which the general theorems are proved, and
    IEEE-754 binary64 ([float]), over which the planner can be evaluated the
    way a JavaScript engine evaluates it. *)

From Stdlib Require Import List Bool Arith ZArith QArith Qround Lia Lqa.
From Stdlib Require Import String Ascii DecimalString PrimFloat.
From Stdlib Require Import DecimalNat Permutation Sorted.
Import ListNotations.

(** ** Numbers *)

(** A theorem over [Q] speaks of exact arithmetic on the numbers as written.
    In binary64 the literals, [0.8 * target] and the differences are rounded,
    which can tip a comparison that is an equality in exact arithmetic; the
    [float] instance gives what the code computes there. *)

(** The operations [calculateOptimalSplitPoints] performs on numbers:
    [a - b], [a * b], [a <= b], [a < b], and the literals [0], [0.8], [0.5].
    The source's [a >= b] is [nleb b a] and its [a > b] is [nltb b a]. *)
Class JsNumber (num : Type) : Type := {
  nsub : num -> num -> num;
  nmul : num -> num -> num;
  nleb : num -> num -> bool;
  nltb : num -> num -> bool;
  nzero : num;
  n0_8 : num;
  n0_5 : num
}.

Definition Qltb (a b : Q) : bool := negb (Qle_bool b a).

#[export] Instance JsNumber_Q : JsNumber Q := {
  nsub := Qminus;
  nmul := Qmult;
  nleb := Qle_bool;
  nltb := Qltb;
  nzero := 0%Q;
  n0_8 := (8 # 10)%Q;
  n0_5 := (1 # 2)%Q
}.

#[export] Instance JsNumber_float : JsNumber float := {
  nsub := PrimFloat.sub;
  nmul := PrimFloat.mul;
  nleb := PrimFloat.leb;
  nltb := PrimFloat.ltb;
  nzero := 0%float;
  n0_8 := 0x1.999999999999ap-1%float; (* the double nearest to 0.8 *)
  n0_5 := 0.5%float
}.

(** ** The split-point planner *)

Section Planner.
Context {num : Type} `{JsNumber num}.

(** The inner [for (let j = i; ...)] loop of [calculateOptimalSplitPoints],
    run over the suffix [silencePoints[i..]].  [bestPoint] enters as the
    opening candidate and is overwritten only by the first branch. *)
Fixpoint lookForBestPoint (currentTime maxChunkDuration bestPoint : num)
         (suffix : list num) : num :=
  match suffix with
  | [] => bestPoint
  | candidatePoint :: rest =>
      let chunkDuration := nsub candidatePoint currentTime in
      if nleb chunkDuration maxChunkDuration
         && nleb (nmul maxChunkDuration n0_5) chunkDuration
      then candidatePoint
      else if nltb maxChunkDuration chunkDuration
      then bestPoint
      else lookForBestPoint currentTime maxChunkDuration bestPoint rest
  end.

(** The outer [for (let i = 0; ...)] loop, run over the suffix
    [silencePoints[i..]]; it returns what is pushed on [splitPoints] from
    position [i] on.  The index [i] advances by one whatever the inner loop
    did. *)
Fixpoint splitLoop (currentTime maxChunkDuration : num)
         (suffix : list num) : list num :=
  match suffix with
  | [] => []
  | silencePoint :: rest =>
      if nleb (nmul maxChunkDuration n0_8) (nsub silencePoint currentTime)
      then
        let bestPoint :=
          lookForBestPoint currentTime maxChunkDuration silencePoint suffix in
        bestPoint :: splitLoop bestPoint maxChunkDuration rest
      else splitLoop currentTime maxChunkDuration rest
  end.

Definition calculateOptimalSplitPoints
           (silencePoints : list num) (totalDuration maxChunkDuration : num)
  : list num :=
  splitLoop nzero maxChunkDuration silencePoints.

End Planner.

(** ** The specification's reference planner *)

Section Reference.
Context {num : Type} `{JsNumber num}.

(** Step 3 of the specification's algorithm: scan forward from the opening
    candidate (inclusive) for the first point [q] with
    [0.5 * target <= q - cursor <= target], stopping at the first point with
    [q - cursor > target].  The result carries the distance of [q] from the
    opening position. *)
Fixpoint forwardScan (cursor target : num) (offset : nat) (points : list num)
  : option (nat * num) :=
  match points with
  | [] => None
  | q :: rest =>
      if nleb (nmul n0_5 target) (nsub q cursor) && nleb (nsub q cursor) target
      then Some (offset, q)
      else if nltb target (nsub q cursor)
      then None
      else forwardScan cursor target (S offset) rest
  end.

(** Steps 2, 4, 5 and 6: [skip] counts the positions still to pass over
    before the outer walk resumes, so that after a cut chosen at forward-scan
    position [j] the walk resumes at [j + 1]. *)
Fixpoint referenceWalk (skip : nat) (cursor target : num) (points : list num)
  : list num :=
  match points with
  | [] => []
  | p :: rest =>
      match skip with
      | S k => referenceWalk k cursor target rest
      | O =>
          if nleb (nmul n0_8 target) (nsub p cursor)
          then
            let chosen :=
              match forwardScan cursor target 0 points with
              | Some found => found
              | None => (O, p)
              end in
            snd chosen :: referenceWalk (fst chosen) (snd chosen) target rest
          else referenceWalk 0 cursor target rest
      end
  end.

Definition referencePlan (silencePoints : list num)
           (duration targetChunkSeconds : num) : list num :=
  referenceWalk 0 nzero targetChunkSeconds silencePoints.

End Reference.

(** ** Orderings on sequences of seconds *)

(** Chronological (non-decreasing) order, as the silence scan produces it. *)
Fixpoint chronological (points : list Q) : Prop :=
  match points with
  | [] => True
  | a :: rest =>
      match rest with
      | [] => True
      | b :: _ => (a <= b)%Q /\ chronological rest
      end
  end.

(** [increasingFrom c l]: [l] is strictly increasing and starts above [c]. *)
Fixpoint increasingFrom (c : Q) (points : list Q) : Prop :=
  match points with
  | [] => True
  | a :: rest => (c < a)%Q /\ increasingFrom a rest
  end.

Definition strictlyIncreasing (points : list Q) : Prop :=
  match points with
  | [] => True
  | a :: rest => increasingFrom a rest
  end.

(** ** Strings, numbers as text, timestamps *)

Definition newline : string := String (ascii_of_nat 10) EmptyString.

(** [String.prototype.padStart] with a one-character filler. *)
Definition padStart (targetLength : nat) (filler : ascii) (s : string) : string :=
  (string_of_list_ascii (repeat filler (targetLength - String.length s)) ++ s)%string.

(** [toString] of an integral number. *)
Definition natToString (n : nat) : string :=
  NilEmpty.string_of_uint (Nat.to_uint n).

Definition intToString (z : Z) : string :=
  NilEmpty.string_of_int (Z.to_int z).

(** The [%] operator: the remainder has the sign of the dividend. *)
Definition Qtrunc (x : Q) : Z :=
  if Qle_bool 0 x then Qfloor x else Qceiling x.

Definition jsRemainder (a b : Q) : Q :=
  (a - b * inject_Z (Qtrunc (a / b)))%Q.

Definition formatTimestamp (seconds : Q) : string :=
  let hours := Qfloor (seconds / 3600) in
  let minutes := Qfloor (jsRemainder seconds 3600 / 60) in
  let secs := Qfloor (jsRemainder seconds 60) in
  if (0 <? hours)%Z
  then (padStart 2 "0" (intToString hours) ++ ":"
        ++ padStart 2 "0" (intToString minutes) ++ ":"
        ++ padStart 2 "0" (intToString secs))%string
  else (padStart 2 "0" (intToString minutes) ++ ":"
        ++ padStart 2 "0" (intToString secs))%string.

(** [path.join] of a directory and a file name (no normalisation). *)
Definition pathJoin (dir file : string) : string :=
  (dir ++ "/" ++ file)%string.

(** ** Segments and chunks *)

(** [{ start, end }]; [end_ = None] is the source's [end: null]. *)
Record Segment : Type := mkSegment {
  start : Q;
  end_ : option Q
}.

(** [{ path, startTime, endTime }]. *)
Record Chunk : Type := mkChunk {
  path : string;
  startTime : Q;
  endTime : option Q
}.

(** The first loop of [splitAtSpecificPoints]: one closed segment per split
    point; [previous] is [0] at [i = 0] and [splitPoints[i - 1]] afterwards. *)
Fixpoint closedSegments (previous : Q) (splitPoints : list Q) : list Segment :=
  match splitPoints with
  | [] => []
  | endTime :: rest =>
      mkSegment previous (Some endTime) :: closedSegments endTime rest
  end.

(** The [segments] array of [splitAtSpecificPoints]; the final open segment
    is pushed only under [if (splitPoints.length > 0)]. *)
Definition segmentsOf (splitPoints : list Q) : list Segment :=
  closedSegments 0 splitPoints
  ++ match splitPoints with
     | [] => []
     | _ :: _ => [mkSegment (last splitPoints 0%Q) None]
     end.

Definition chunkFileName (baseName : string) (index : nat) : string :=
  (baseName ++ "_chunk_" ++ padStart 3 "0" (natToString index) ++ ".mp3")%string.

(** ** Segment extraction as an event-driven promise *)

(** What an extraction command reports back: its ['end'] or its ['error']
    event.  The order of these events over the commands started by
    [segments.forEach] is decided by ffmpeg, not by the program. *)
Inductive FfmpegEvent : Type :=
| EvEnd (index : nat)
| EvError (index : nat) (message : string).

(** The segment an event belongs to. *)
Definition eventIndex (ev : FfmpegEvent) : nat :=
  match ev with
  | EvEnd index => index
  | EvError index _ => index
  end.

(** ['end'] events, as opposed to ['error'] events. *)
Definition isEnd (ev : FfmpegEvent) : Prop :=
  match ev with
  | EvEnd _ => True
  | EvError _ _ => False
  end.

Inductive PromiseState : Type :=
| Pending
| Fulfilled
| Rejected (reason : string).

(** [resolve] and [reject] act on a pending promise only. *)
Definition settle (current attempt : PromiseState) : PromiseState :=
  match current with
  | Pending => attempt
  | _ => current
  end.

(** The closure state of [splitAtSpecificPoints].  A fulfilled promise holds
    the [chunks] array itself, so its value is read from this field. *)
Record ExtractState : Type := mkExtractState {
  chunks : list Chunk;
  processedCount : nat;
  promise : PromiseState
}.

Definition initialExtractState : ExtractState := mkExtractState [] 0 Pending.

(** The object pushed on [chunks] by the ['end'] handler of segment [index]. *)
Definition chunkFor (outputDir baseName : string) (index : nat)
           (segment : Segment) : Chunk :=
  mkChunk (pathJoin outputDir (chunkFileName baseName index))
          (start segment) (end_ segment).

(** One event handled: ['end'] pushes the chunk, counts it and resolves when
    the count reaches [segments.length]; ['error'] rejects. *)
Definition onEvent (outputDir baseName : string) (segments : list Segment)
           (st : ExtractState) (ev : FfmpegEvent) : ExtractState :=
  match ev with
  | EvEnd index =>
      match nth_error segments index with
      | None => st
      | Some segment =>
          let counted := S (processedCount st) in
          mkExtractState
            (chunks st ++ [chunkFor outputDir baseName index segment])
            counted
            (if counted =? List.length segments
             then settle (promise st) Fulfilled
             else promise st)
      end
  | EvError index message =>
      match nth_error segments index with
      | None => st
      | Some _ =>
          mkExtractState (chunks st) (processedCount st)
            (settle (promise st)
               (Rejected ("Error creating chunk " ++ natToString index
                          ++ ": " ++ message)%string))
      end
  end.

(** What the awaiting caller observes. *)
Inductive Outcome : Type :=
| NeverSettles
| Resolves (result : list Chunk)
| Rejects (reason : string).

Definition observe (st : ExtractState) : Outcome :=
  match promise st with
  | Pending => NeverSettles
  | Fulfilled => Resolves (chunks st)
  | Rejected reason => Rejects reason
  end.

Definition splitAtSpecificPoints (outputDir baseName : string)
           (splitPoints : list Q) (events : list FfmpegEvent) : Outcome :=
  observe (fold_left (onEvent outputDir baseName (segmentsOf splitPoints))
                     events initialExtractState).

(** The ffmpeg commands a function starts, in the order it starts them. *)
Inductive FfmpegRun : Type :=
| RunSilenceDetect
| RunExtract (index : nat) (ss : Q) (t : option Q)
| RunSegmenter (segment_time : Q).

(** [segments.forEach]: one extraction command per segment, with [-ss start]
    and, for a closed segment, [-t (end - start)]. *)
Fixpoint extractCommands (index : nat) (segments : list Segment)
  : list FfmpegRun :=
  match segments with
  | [] => []
  | segment :: rest =>
      RunExtract index (start segment)
        (match end_ segment with
         | Some e => Some (e - start segment)%Q
         | None => None
         end)
      :: extractCommands (S index) rest
  end.

(** ** The time-based fallback *)

Definition endsWith (suffix s : string) : bool :=
  (String.length suffix <=? String.length s)
  && String.eqb
       (substring (String.length s - String.length suffix)
                  (String.length suffix) s)
       suffix.

Fixpoint insertSorted (file : string) (sorted : list string) : list string :=
  match sorted with
  | [] => [file]
  | other :: rest =>
      if String.leb file other
      then file :: sorted
      else other :: insertSorted file rest
  end.

(** [Array.prototype.sort] on file names: ascending by character code. *)
Definition sortFiles (files : list string) : list string :=
  fold_right insertSorted [] files.

(** What the segmenter command leaves behind: its error, or the listing of
    the output directory read by [fs.readdirSync]. *)
Inductive SegmenterResult : Type :=
| SegmenterError (message : string)
| SegmenterDone (listing : list string).

(** [files.forEach((file, index) => ...)] of [splitByTime]. *)
Fixpoint timeChunks (outputDir : string) (chunkDuration : Q) (index : nat)
         (files : list string) : list Chunk :=
  match files with
  | [] => []
  | file :: rest =>
      let startTime := (inject_Z (Z.of_nat index) * chunkDuration)%Q in
      mkChunk (pathJoin outputDir file) startTime
              (Some (startTime + chunkDuration)%Q)
      :: timeChunks outputDir chunkDuration (S index) rest
  end.

Definition splitByTime (outputDir baseName : string) (chunkDuration : Q)
           (segmenter : SegmenterResult) : Outcome :=
  match segmenter with
  | SegmenterError message => Rejects message
  | SegmenterDone listing =>
      let files :=
        sortFiles
          (filter (fun file =>
                     prefix (baseName ++ "_chunk_")%string file
                     && endsWith ".mp3" file)
                  listing) in
      Resolves (timeChunks outputDir chunkDuration 0 files)
  end.

(** ** [splitAtSilence]: scan, plan, then extract or fall back *)

(** What the silence-detection pass yields: its error, or the silence points
    and the duration parsed from its output. *)
Inductive ScanResult : Type :=
| ScanError (message : string)
| ScanDone (silencePoints : list Q) (audioDuration : Q).

(** Everything ffmpeg contributes to one call of [splitAtSilence]. *)
Record Ffmpeg : Type := mkFfmpeg {
  scan : ScanResult;
  extraction : list FfmpegEvent;
  segmenter : SegmenterResult
}.

(** The commands started by [splitAtSilence] and the promise's outcome. *)
Definition splitAtSilence (world : Ffmpeg) (outputDir baseName : string)
           (maxChunkDuration : Q) : list FfmpegRun * Outcome :=
  match scan world with
  | ScanError message => ([RunSilenceDetect], Rejects message)
  | ScanDone silencePoints audioDuration =>
      let splitPoints :=
        calculateOptimalSplitPoints silencePoints audioDuration
                                    maxChunkDuration in
      if List.length splitPoints =? 0
      then ([RunSilenceDetect; RunSegmenter maxChunkDuration],
            splitByTime outputDir baseName maxChunkDuration (segmenter world))
      else (RunSilenceDetect :: extractCommands 0 (segmentsOf splitPoints),
            splitAtSpecificPoints outputDir baseName splitPoints
                                  (extraction world))
  end.

(** ** The transcription loop of [transcribeAudio] *)

Inductive TranscribeResult : Type :=
| Transcribed (text : string)
| TranscribeFailed (message : string).

(** What the loop does to the outside, in order: a call of
    [transcribeAudioFile], and the string [appendTranscriptionToFile] hands to
    [fs.appendFileSync] (the text followed by a blank line). *)
Inductive IOEvent : Type :=
| CallTranscribe (file : string)
| AppendToFile (written : string).

Section TranscriptionLoop.

(** The remote call made by [transcribeAudioFile]: its answer to the [i]-th
    call, on the given file.  A failure is the thrown error's message. *)
Variable transcribeAudioFile : nat -> string -> TranscribeResult.

(** [chunk.endTime ? formatTimestamp(chunk.endTime) : 'end']: [null] and [0]
    are both falsy. *)
Definition endLabel (chunk : Chunk) : string :=
  match endTime chunk with
  | None => "end"
  | Some e => if Qeq_bool e 0 then "end" else formatTimestamp e
  end.

Definition chunkHeader (chunk : Chunk) : string :=
  ("[" ++ formatTimestamp (startTime chunk) ++ " - " ++ endLabel chunk ++ "]")%string.

(** The text handed to [appendTranscriptionToFile] for one chunk: the [try]
    branch on success, the [catch] branch on failure. *)
Definition chunkText (i : nat) (chunk : Chunk) : string :=
  match transcribeAudioFile i (path chunk) with
  | Transcribed transcription =>
      (chunkHeader chunk ++ newline ++ transcription)%string
  | TranscribeFailed message =>
      (chunkHeader chunk ++ newline ++ "[ERROR: " ++ message ++ "]")%string
  end.

(** [for (let i = 0; i < chunks.length; i++)]: each chunk is transcribed and
    its text, followed by a blank line, appended before the next iteration. *)
Fixpoint transcribeLoop (i : nat) (chunks : list Chunk) : list IOEvent :=
  match chunks with
  | [] => []
  | chunk :: rest =>
      CallTranscribe (path chunk)
      :: AppendToFile (chunkText i chunk ++ newline ++ newline)%string
      :: transcribeLoop (S i) rest
  end.

(** The chunked branch of [transcribeAudio] once splitting has settled: a
    rejection is caught by the outer [catch] and nothing is transcribed. *)
Definition transcribeChunks (splitting : Outcome) : list IOEvent :=
  match splitting with
  | Resolves chunks => transcribeLoop 0 chunks
  | _ => []
  end.

End TranscriptionLoop.

(** ** [convertToMP3] and [transcribeAudioFile] *)

(** [inputPath.replace(/\.[^/.]+$/, '.mp3')], on the characters of the path
    in reverse: the extension is the non-empty run of characters other than
    [/] and [.] at the end of the path, when a [.] precedes it. *)
Fixpoint splitExtension (reversed : list ascii) : list ascii * list ascii :=
  match reversed with
  | [] => ([], [])
  | c :: rest =>
      if Ascii.eqb c "/" || Ascii.eqb c "."
      then ([], reversed)
      else let (extension, before) := splitExtension rest in
           (c :: extension, before)
  end.

Definition replaceExtension (inputPath : string) : string :=
  match splitExtension (rev (list_ascii_of_string inputPath)) with
  | (_ :: _, dot :: stem) =>
      if Ascii.eqb dot "."
      then (string_of_list_ascii (rev stem) ++ ".mp3")%string
      else inputPath
  | _ => inputPath
  end.

(** What [transcribeAudioFile] does to the outside, in order: an ffprobe run,
    a conversion run, the request to the remote service, the removal of a
    file. *)
Inductive FileEffect : Type :=
| Probe (file : string)
| Convert (input output : string)
| Post (file : string)
| Unlink (file : string).

(** The answer to the request: the text; an error carrying a response of the
    service whose [data.error.message] can be read; an error carrying a
    response that holds no [data.error], so that reading
    [error.response.data.error.message] in the [catch] throws a TypeError,
    whose message is given; or an error without a response. *)
Inductive PostReply : Type :=
| PostOk (text : string)
| PostRefused (serviceMessage : string)
| PostRefusedWithoutError (typeError : string)
| PostFailed (message : string).

(** Everything the outside contributes to one call of [transcribeAudioFile]:
    [fs.existsSync] and [fs.statSync] on the input, the two ffprobe runs,
    the conversion run, the reply, and [fs.existsSync] and [fs.unlinkSync] on
    the converted file.  An [option string] is an error message, [None]
    meaning success. *)
Record AudioFileWorld : Type := mkAudioFileWorld {
  fileExists : bool;
  fileSize : N;
  probeOriginal : option string;
  conversion : option string;
  probeCompatible : option string;
  reply : PostReply;
  compatibleExists : bool;
  unlinkProblem : option string
}.

Section TranscribeAudioFile.

(** Library functions: [path.extname], [String.prototype.toLowerCase] and
    [Number.prototype.toFixed(2)]. *)
Variable extname : string -> string.
Variable toLowerCase : string -> string.
Variable toFixed2 : Q -> string.

(** [convertToMP3]: an [.mp3] input is returned as it is; otherwise ffmpeg
    writes the converted copy next to the input. *)
Definition convertToMP3 (world : AudioFileWorld) (inputPath : string)
  : list FileEffect * (string + string) :=
  let outputPath := replaceExtension inputPath in
  if String.eqb (toLowerCase (extname inputPath)) ".mp3"
  then ([], inr inputPath)
  else match conversion world with
       | Some message =>
           ([Convert inputPath outputPath],
            inl ("Conversion error: " ++ message)%string)
       | None => ([Convert inputPath outputPath], inr outputPath)
       end.

(** The [catch] of [transcribeAudioFile]: an error whose message can be read
    is thrown again under the same prefix. *)
Definition transcriptionError (message : string) : TranscribeResult :=
  TranscribeFailed ("Transcription error: " ++ message)%string.

(** [transcribeAudioFile] on the resolved path [absPath]: the effects it had
    and its result.  [fs.statSync] is taken to succeed on the input once
    [fs.existsSync] has found it and on the converted file once ffprobe has
    read it. *)
Definition transcribeAudioFile (world : AudioFileWorld) (absPath : string)
  : list FileEffect * TranscribeResult :=
  if negb (fileExists world)
  then ([], transcriptionError ("File not found: " ++ absPath)%string)
  else if (25 * 1024 * 1024 <? fileSize world)%N
  then ([],
        transcriptionError
          ("File too large: "
           ++ toFixed2 (inject_Z (Z.of_N (fileSize world)) / 1024 / 1024)%Q
           ++ " MB (max 25MB)")%string)
  else
    match probeOriginal world with
    | Some message =>
        ([Probe absPath],
         transcriptionError ("Invalid audio file: " ++ message)%string)
    | None =>
        match convertToMP3 world absPath with
        | (converting, inl message) =>
            (Probe absPath :: converting, transcriptionError message)
        | (converting, inr compatiblePath) =>
            match probeCompatible world with
            | Some message =>
                (Probe absPath :: converting ++ [Probe compatiblePath],
                 transcriptionError ("Invalid audio file: " ++ message)%string)
            | None =>
                let sent :=
                  Probe absPath
                  :: converting ++ [Probe compatiblePath; Post compatiblePath] in
                match reply world with
                | PostRefused serviceMessage =>
                    (sent, transcriptionError serviceMessage)
                | PostRefusedWithoutError typeError =>
                    (sent, TranscribeFailed typeError)
                | PostFailed message => (sent, transcriptionError message)
                | PostOk text =>
                    if negb (String.eqb compatiblePath absPath)
                       && compatibleExists world
                    then
                      match unlinkProblem world with
                      | Some message =>
                          (sent ++ [Unlink compatiblePath],
                           transcriptionError message)
                      | None =>
                          (sent ++ [Unlink compatiblePath], Transcribed text)
                      end
                    else (sent, Transcribed text)
                end
            end
        end
    end.

End TranscribeAudioFile.

(** ** [testSilenceDetection] *)

(** One entry of [testParams]. *)
Record DetectionParams : Type := mkDetectionParams {
  noise : Z;
  duration : Q;
  desc : string
}.

Definition testParams : list DetectionParams :=
  [mkDetectionParams (-20) (1 # 10) "Very sensitive (short silences)";
   mkDetectionParams (-16) (25 # 100) "Current setting";
   mkDetectionParams (-12) (5 # 10) "Less sensitive (longer silences)";
   mkDetectionParams (-8) 1 "Very insensitive (very long silences)"].

(** [{ params, silenceCount, silencePoints }]. *)
Record DetectionResult : Type := mkDetectionResult {
  params : DetectionParams;
  silenceCount : nat;
  testedSilencePoints : list Q
}.

(** What a detection run reports back: ['end'], with the silence points its
    output held, or ['error']. *)
Inductive DetectionEvent : Type :=
| TestEnd (index : nat) (found : list Q)
| TestError (index : nat) (message : string).

(** The closure state of [testSilenceDetection]; a fulfilled promise holds
    the [results] array. *)
Record DetectionState : Type := mkDetectionState {
  results : list DetectionResult;
  completedTests : nat;
  testsPromise : PromiseState
}.

(** Both handlers count the run and resolve when the count reaches
    [testParams.length]; only ['end'] pushes a result. *)
Definition onDetectionEvent (st : DetectionState) (ev : DetectionEvent)
  : DetectionState :=
  let counted := S (completedTests st) in
  let settled :=
    if counted =? List.length testParams
    then settle (testsPromise st) Fulfilled
    else testsPromise st in
  match ev with
  | TestEnd index found =>
      match nth_error testParams index with
      | None => st
      | Some tested =>
          mkDetectionState
            (results st ++ [mkDetectionResult tested (List.length found) found])
            counted settled
      end
  | TestError index _ =>
      match nth_error testParams index with
      | None => st
      | Some _ => mkDetectionState (results st) counted settled
      end
  end.

Definition testSilenceDetection (events : list DetectionEvent) : DetectionState :=
  fold_left onDetectionEvent events (mkDetectionState [] 0 Pending).

(** The results the ['end'] events of a list stand for, in order. *)
Fixpoint reportedResults (events : list DetectionEvent) : list DetectionResult :=
  match events with
  | [] => []
  | TestEnd index found :: rest =>
      match nth_error testParams index with
      | None => reportedResults rest
      | Some tested =>
          mkDetectionResult tested (List.length found) found
          :: reportedResults rest
      end
  | TestError _ _ :: rest => reportedResults rest
  end.

Definition detectionIndex (ev : DetectionEvent) : nat :=
  match ev with
  | TestEnd index _ => index
  | TestError index _ => index
  end.

(** The writes that reached the output file, in order. *)
Fixpoint fileWrites (trace : list IOEvent) : list string :=
  match trace with
  | [] => []
  | AppendToFile written :: rest => written :: fileWrites rest
  | CallTranscribe _ :: rest => fileWrites rest
  end.

(** The files handed to the remote call, in order. *)
Fixpoint transcribeCalls (trace : list IOEvent) : list string :=
  match trace with
  | [] => []
  | CallTranscribe file :: rest => file :: transcribeCalls rest
  | AppendToFile _ :: rest => transcribeCalls rest
  end.

(** The answers of the remote service used in the examples below: the
    second call fails, the others succeed. *)
Definition secondCallFails (i : nat) (file : string) : TranscribeResult :=
  if (i =? 1)%nat
  then TranscribeFailed "Transcription error: timeout"%string
  else Transcribed "hello"%string.

(** ** Shape of a sequence of segments *)



Definition segmentBounds (segment : Segment) : Q * option Q :=
  (start segment, end_ segment).

Definition chunkBounds (chunk : Chunk) : Q * option Q :=
  (startTime chunk, endTime chunk).

(** ** Shapes of a plan *)

(** [Subsequence s l]: [s] is [l] with some elements left out, in order. *)
Inductive Subsequence {A : Type} : list A -> list A -> Prop :=
| Subsequence_nil : forall l, Subsequence [] l
| Subsequence_skip : forall x s l, Subsequence s l -> Subsequence s (x :: l)
| Subsequence_take : forall x s l, Subsequence s l -> Subsequence (x :: s) (x :: l).

(** Consecutive points are at least [g] apart. *)
Fixpoint gapsAtLeast (g : Q) (points : list Q) : Prop :=
  match points with
  | [] => True
  | a :: rest =>
      match rest with
      | [] => True
      | b :: _ => (g <= b - a)%Q /\ gapsAtLeast g rest
      end
  end.

(** ** Reading the extraction commands *)



(** An extraction command that seeks to a non-negative offset and, when it
    has a [-t], asks for a positive length. *)
Definition seeksForward (run : FfmpegRun) : Prop :=
  match run with
  | RunExtract _ ss (Some t) => (0 <= ss)%Q /\ (0 < t)%Q
  | RunExtract _ ss None => (0 <= ss)%Q
  | _ => True
  end.

(** ** Reading a chunk index back *)

(** A decimal natural read back from text; leading zeros are allowed. *)
Definition readNat (s : string) : option nat :=
  option_map Nat.of_uint (NilEmpty.uint_of_string s).

(** The chunks in segment order: chunk [i] is the one of segment [i]. *)
Definition chunksInSegmentOrder (outputDir baseName : string)
           (segments : list Segment) : list Chunk :=
  map (fun k => chunkFor outputDir baseName k (nth k segments (mkSegment 0 None)))
      (seq 0 (List.length segments)).

(** ** Reading the time-based fallback *)

(** The test of the [filter] in [splitByTime]. *)
Definition isChunkFile (baseName file : string) : bool :=
  prefix (baseName ++ "_chunk_")%string file && endsWith ".mp3" file.

(** [a <= b] in the order [sort] uses on file names. *)
Definition nameLe (a b : string) : Prop := String.leb a b = true.

(** ** The planner over exact seconds *)

Section PlannerFacts.
Open Scope Q_scope.

Lemma Qltb_lt (a b : Q) : Qltb a b = true <-> a < b.
Proof.
  unfold Qltb. rewrite negb_true_iff. split.
  - intro E. apply Qnot_le_lt. intro L. apply Qle_bool_iff in L. congruence.
  - intro L. destruct (Qle_bool b a) eqn:E; [|reflexivity].
    apply Qle_bool_iff in E. lra.
Qed.

Lemma Qle_bool_false (a b : Q) : Qle_bool a b = false <-> b < a.
Proof.
  rewrite <- Qltb_lt. unfold Qltb. now rewrite negb_true_iff.
Qed.

(** Once the 80% test has passed, the forward scan stops at its first
    position whatever [maxChunkDuration] is: the opening candidate is either
    inside the window or already past it. *)
Lemma lookForBestPoint_opening (currentTime maxChunkDuration p : Q) rest :
  Qle_bool (maxChunkDuration * (8 # 10)) (p - currentTime) = true ->
  lookForBestPoint currentTime maxChunkDuration p (p :: rest) = p.
Proof.
  intro Hopen. cbn.
  destruct (Qle_bool (p - currentTime) maxChunkDuration
            && Qle_bool (maxChunkDuration * (1 # 2)) (p - currentTime)) eqn:Ewin;
    [reflexivity|].
  destruct (Qltb maxChunkDuration (p - currentTime)) eqn:Eover; [reflexivity|].
  exfalso. apply Qle_bool_iff in Hopen.
  assert (Hle : p - currentTime <= maxChunkDuration).
  { destruct (Qlt_le_dec maxChunkDuration (p - currentTime)) as [L|L]; [|exact L].
    apply Qltb_lt in L. congruence. }
  apply andb_false_iff in Ewin. destruct Ewin as [E|E].
  - apply Qle_bool_false in E. lra.
  - apply Qle_bool_false in E. lra.
Qed.

Lemma splitLoop_cons (currentTime maxChunkDuration p : Q) rest :
  splitLoop currentTime maxChunkDuration (p :: rest)
  = if Qle_bool (maxChunkDuration * (8 # 10)) (p - currentTime)
    then p :: splitLoop p maxChunkDuration rest
    else splitLoop currentTime maxChunkDuration rest.
Proof.
  change (splitLoop currentTime maxChunkDuration (p :: rest))
    with (if Qle_bool (maxChunkDuration * (8 # 10)) (p - currentTime)
          then lookForBestPoint currentTime maxChunkDuration p (p :: rest)
                 :: splitLoop
                      (lookForBestPoint currentTime maxChunkDuration p (p :: rest))
                      maxChunkDuration rest
          else splitLoop currentTime maxChunkDuration rest).
  destruct (Qle_bool (maxChunkDuration * (8 # 10)) (p - currentTime)) eqn:E;
    [|reflexivity].
  now rewrite (lookForBestPoint_opening _ _ _ rest E).
Qed.

(** The specification's forward scan, started at an opening candidate,
    never moves past it either. *)
Lemma forwardScan_opening (cursor target p : Q) rest :
  Qle_bool ((8 # 10) * target) (p - cursor) = true ->
  match forwardScan cursor target 0 (p :: rest) with
  | Some found => found
  | None => (O, p)
  end = (O, p).
Proof.
  intro Hopen. cbn.
  destruct (Qle_bool ((1 # 2) * target) (p - cursor)
            && Qle_bool (p - cursor) target) eqn:Ewin; [reflexivity|].
  destruct (Qltb target (p - cursor)) eqn:Eover; [reflexivity|].
  exfalso. apply Qle_bool_iff in Hopen.
  assert (Hle : p - cursor <= target).
  { destruct (Qlt_le_dec target (p - cursor)) as [L|L]; [|exact L].
    apply Qltb_lt in L. congruence. }
  apply andb_false_iff in Ewin. destruct Ewin as [E|E].
  - apply Qle_bool_false in E. lra.
  - apply Qle_bool_false in E. lra.
Qed.

Lemma opening_test_commutes (target d : Q) :
  Qle_bool ((8 # 10) * target) d = Qle_bool (target * (8 # 10)) d.
Proof.
  destruct (Qle_bool (target * (8 # 10)) d) eqn:E.
  - apply Qle_bool_iff in E. apply Qle_bool_iff. lra.
  - apply Qle_bool_false in E. apply Qle_bool_false. lra.
Qed.

Lemma referenceWalk_cons (cursor target p : Q) rest :
  referenceWalk 0 cursor target (p :: rest)
  = if Qle_bool (target * (8 # 10)) (p - cursor)
    then p :: referenceWalk 0 p target rest
    else referenceWalk 0 cursor target rest.
Proof.
  change (referenceWalk 0 cursor target (p :: rest))
    with (if Qle_bool ((8 # 10) * target) (p - cursor)
          then
            snd match forwardScan cursor target 0 (p :: rest) with
                | Some found => found
                | None => (O, p)
                end
            :: referenceWalk
                 (fst match forwardScan cursor target 0 (p :: rest) with
                      | Some found => found
                      | None => (O, p)
                      end)
                 (snd match forwardScan cursor target 0 (p :: rest) with
                      | Some found => found
                      | None => (O, p)
                      end)
                 target rest
          else referenceWalk 0 cursor target rest).
  rewrite <- opening_test_commutes.
  destruct (Qle_bool ((8 # 10) * target) (p - cursor)) eqn:E; [|reflexivity].
  now rewrite (forwardScan_opening _ _ _ rest E).
Qed.

(** The implemented loop and the reference walk agree from every cursor. *)
Lemma splitLoop_referenceWalk (maxChunkDuration : Q) points :
  forall cursor,
    splitLoop cursor maxChunkDuration points
    = referenceWalk 0 cursor maxChunkDuration points.
Proof.
  induction points as [|p rest IH]; intro cursor; [reflexivity|].
  rewrite splitLoop_cons, referenceWalk_cons.
  destruct (Qle_bool (maxChunkDuration * (8 # 10)) (p - cursor));
    now rewrite IH.
Qed.

(** With a positive target every committed cut lies strictly above the
    cursor it was measured from, so the cuts increase strictly. *)
Lemma splitLoop_increasingFrom (maxChunkDuration : Q) points :
  0 < maxChunkDuration ->
  forall cursor,
    increasingFrom cursor (splitLoop cursor maxChunkDuration points).
Proof.
  intro Hpos. induction points as [|p rest IH]; intro cursor; [exact I|].
  rewrite splitLoop_cons.
  destruct (Qle_bool (maxChunkDuration * (8 # 10)) (p - cursor)) eqn:E.
  - apply Qle_bool_iff in E. split; [lra | apply IH].
  - apply IH.
Qed.

Lemma increasingFrom_above (points : list Q) :
  forall c q, increasingFrom c points -> In q points -> c < q.
Proof.
  induction points as [|a rest IH]; intros c q Hinc Hin; [destruct Hin|].
  destruct Hinc as [Hca Hrest]. destruct Hin as [->|Hin]; [exact Hca|].
  specialize (IH a q Hrest Hin). lra.
Qed.

Lemma increasingFrom_strictlyIncreasing (c : Q) points :
  increasingFrom c points -> strictlyIncreasing points.
Proof. destruct points as [|a rest]; [trivial | intros [_ Hr]; exact Hr]. Qed.

(** Every cut is one of the silence points handed in. *)
Lemma splitLoop_incl (maxChunkDuration : Q) points :
  forall cursor q,
    In q (splitLoop cursor maxChunkDuration points) -> In q points.
Proof.
  induction points as [|p rest IH]; intros cursor q Hin; [exact Hin|].
  rewrite splitLoop_cons in Hin.
  destruct (Qle_bool (maxChunkDuration * (8 # 10)) (p - cursor)).
  - destruct Hin as [->|Hin]; [now left | right; eapply IH; eauto].
  - right; eapply IH; eauto.
Qed.

(** With a target of zero or less the 80% test passes at every silence point
    that is not before the cursor, and the point itself is committed. *)
Lemma splitLoop_takes_every_point (maxChunkDuration : Q) points :
  maxChunkDuration <= 0 ->
  forall cursor,
    chronological (cursor :: points) ->
    splitLoop cursor maxChunkDuration points = points.
Proof.
  intro Hmax. induction points as [|p rest IH]; intros cursor Hchron;
    [reflexivity|].
  rewrite splitLoop_cons. destruct Hchron as [Hle Hrest].
  replace (Qle_bool (maxChunkDuration * (8 # 10)) (p - cursor)) with true
    by (symmetry; apply Qle_bool_iff; lra).
  now rewrite (IH p Hrest).
Qed.

End PlannerFacts.

(** ** Claims about the planner *)

(** C3: on silencePoints = [10,40,65,95,130], duration = 140 and
    targetChunkSeconds = 60 the planner returns exactly [65, 130]. *)
Theorem C3_planner_worked_example :
  calculateOptimalSplitPoints [10; 40; 65; 95; 130]%Q 140%Q 60%Q = [65; 130]%Q.
Proof. vm_compute. reflexivity. Qed.

(** The same run on binary64 numbers, where [60 * 0.8] rounds to [48]. *)
Example planner_worked_example_float :
  calculateOptimalSplitPoints [10; 40; 65; 95; 130]%float 140%float 60%float
  = [65; 130]%float.
Proof. vm_compute. reflexivity. Qed.

(** C10: the planner never reads its total-duration argument: two calls that
    differ only in [totalDuration] return the same split points. *)
Theorem C10_totalDuration_is_never_read :
  forall (num : Type) (J : JsNumber num)
         (silencePoints : list num) (d1 d2 maxChunkDuration : num),
    calculateOptimalSplitPoints silencePoints d1 maxChunkDuration
    = calculateOptimalSplitPoints silencePoints d2 maxChunkDuration.
Proof. intros. unfold calculateOptimalSplitPoints. reflexivity. Qed.

(** C2 as stated fails: the planner does not look at the duration, so a
    silence point beyond it is returned as a cut; and with a target of zero a
    repeated silence point is returned twice. *)
Lemma C2_counterexample :
  (calculateOptimalSplitPoints [100]%Q 50%Q 60%Q = [100]%Q
   /\ ~ (100 < 50)%Q)
  /\ (calculateOptimalSplitPoints [5; 5]%Q 140%Q 0%Q = [5; 5]%Q
      /\ ~ strictlyIncreasing [5; 5]%Q).
Proof.
  repeat split; try (vm_compute; reflexivity).
  - intro H. vm_compute in H. discriminate.
  - cbn. intros [H _]. vm_compute in H. discriminate.
Qed.

(** C2 (amended): for a positive target and silence points that all lie
    below the duration, every returned split point lies strictly between 0
    and the duration, and the returned sequence is strictly increasing. *)
Theorem C2_split_points_bounded_increasing :
  forall (silencePoints : list Q) (duration targetChunkSeconds : Q),
    (0 < targetChunkSeconds)%Q ->
    (forall p, In p silencePoints -> (p < duration)%Q) ->
    (forall q,
        In q (calculateOptimalSplitPoints silencePoints duration targetChunkSeconds) ->
        (0 < q)%Q /\ (q < duration)%Q)
    /\ strictlyIncreasing
         (calculateOptimalSplitPoints silencePoints duration targetChunkSeconds).
Proof.
  intros silencePoints duration target Hpos Hbelow.
  unfold calculateOptimalSplitPoints.
  pose proof (splitLoop_increasingFrom target silencePoints Hpos 0%Q) as Hinc.
  split.
  - intros q Hin. split.
    + exact (increasingFrom_above _ _ _ Hinc Hin).
    + apply Hbelow. exact (splitLoop_incl _ _ _ _ Hin).
  - exact (increasingFrom_strictlyIncreasing _ _ Hinc).
Qed.

Lemma C2_split_points_bounded_increasing_witness :
  (0 < 60)%Q
  /\ (forall p, In p [10; 40; 65; 95; 130]%Q -> (p < 140)%Q)
  /\ ((forall q,
         In q (calculateOptimalSplitPoints [10; 40; 65; 95; 130]%Q 140%Q 60%Q) ->
         (0 < q)%Q /\ (q < 140)%Q)
      /\ strictlyIncreasing
           (calculateOptimalSplitPoints [10; 40; 65; 95; 130]%Q 140%Q 60%Q)).
Proof.
  assert (Hpos : (0 < 60)%Q) by reflexivity.
  assert (Hbelow : forall p, In p [10; 40; 65; 95; 130]%Q -> (p < 140)%Q).
  { intros p Hin. cbn in Hin.
    repeat (destruct Hin as [<-|Hin]; [reflexivity|]). destruct Hin. }
  split; [exact Hpos|]. split; [exact Hbelow|].
  exact (C2_split_points_bounded_increasing _ _ _ Hpos Hbelow).
Defined.

(** C9: for every chronologically non-decreasing silence-point sequence and
    every positive target, the implemented split-point computation returns
    the same sequence as the specification's reference algorithm, which
    resumes the outer walk at the position after the chosen cut. *)
Theorem C9_planner_refines_reference :
  forall (silencePoints : list Q) (duration targetChunkSeconds : Q),
    chronological silencePoints ->
    (0 < targetChunkSeconds)%Q ->
    calculateOptimalSplitPoints silencePoints duration targetChunkSeconds
    = referencePlan silencePoints duration targetChunkSeconds.
Proof.
  intros silencePoints duration target _ _.
  unfold calculateOptimalSplitPoints, referencePlan.
  apply splitLoop_referenceWalk.
Qed.

Lemma C9_planner_refines_reference_witness :
  chronological [10; 40; 65; 95; 130]%Q
  /\ (0 < 60)%Q
  /\ calculateOptimalSplitPoints [10; 40; 65; 95; 130]%Q 140%Q 60%Q
     = referencePlan [10; 40; 65; 95; 130]%Q 140%Q 60%Q.
Proof.
  assert (Hchron : chronological [10; 40; 65; 95; 130]%Q).
  { cbn. repeat split; intro E; discriminate E. }
  assert (Hpos : (0 < 60)%Q) by reflexivity.
  split; [exact Hchron|]. split; [exact Hpos|].
  exact (C9_planner_refines_reference _ 140%Q _ Hchron Hpos).
Defined.

(** ** The segment list *)

Section SegmentFacts.
Open Scope Q_scope.



Lemma segmentsOf_nonempty (splitPoints : list Q) :
  splitPoints <> [] ->
  segmentsOf splitPoints
  = closedSegments 0 splitPoints ++ [mkSegment (last splitPoints 0) None].
Proof. destruct splitPoints; [contradiction | reflexivity]. Qed.

Lemma segmentsOf_length (splitPoints : list Q) :
  splitPoints <> [] ->
  List.length (segmentsOf splitPoints) = S (List.length splitPoints).
Proof.
  intro Hne. rewrite segmentsOf_nonempty by exact Hne.
  rewrite length_app. cbn.
  assert (L : forall l c, List.length (closedSegments c l) = List.length l).
  { induction l as [|a l IH]; intro c; cbn; [reflexivity | now rewrite IH]. }
  rewrite L. lia.
Qed.



End SegmentFacts.

(** ** The extraction promise *)

Section ExtractionFacts.
Local Open Scope nat_scope.
Variables outputDir baseName : string.
Variable segments : list Segment.

Let handle := onEvent outputDir baseName segments.

(** A settled promise stays as it is. *)
Lemma rejected_is_final (events : list FfmpegEvent) :
  forall st reason,
    promise st = Rejected reason ->
    promise (fold_left handle events st) = Rejected reason.
Proof.
  induction events as [|ev rest IH]; intros st reason Hst; [exact Hst|].
  cbn [fold_left]. apply IH. subst handle. unfold onEvent.
  destruct ev as [index|index message];
    destruct (nth_error segments index); cbn [promise]; try exact Hst.
  - destruct (S (processedCount st) =? List.length segments);
      rewrite Hst; reflexivity.
  - rewrite Hst. reflexivity.
Qed.

(** With no segment there is no handler: no event changes the state. *)
Lemma no_segment_no_change (events : list FfmpegEvent) :
  segments = [] ->
  forall st, fold_left handle events st = st.
Proof.
  intros Hnil. induction events as [|ev rest IH]; intro st; [reflexivity|].
  cbn [fold_left]. rewrite <- (IH st) at 2. f_equal. subst handle.
  unfold onEvent.
  rewrite Hnil. destruct ev as [index|index message];
    destruct index; reflexivity.
Qed.

(** While fewer than [segments.length] commands have ended, and none has
    failed, the promise is pending. *)
Lemma ends_below_count_stay_pending (events : list FfmpegEvent) :
  forall st,
    Forall isEnd events ->
    promise st = Pending ->
    processedCount st
    + List.length (filter (fun k => k <? List.length segments)
                          (map eventIndex events))
    < List.length segments ->
    promise (fold_left handle events st) = Pending.
Proof.
  induction events as [|ev rest IH]; intros st Hends Hst Hcount; [exact Hst|].
  inversion Hends as [|? ? Hev Hrest]; subst.
  destruct ev as [index|index message]; [|destruct Hev].
  cbn [map eventIndex filter] in Hcount. cbn [fold_left].
  apply IH; [exact Hrest | |].
  - subst handle. unfold onEvent.
    destruct (nth_error segments index) eqn:E; [|exact Hst].
    assert (Hlt : index < List.length segments)
      by (apply nth_error_Some; congruence).
    apply Nat.ltb_lt in Hlt. rewrite Hlt in Hcount.
    cbn [List.length] in Hcount. cbn [promise].
    destruct (S (processedCount st) =? List.length segments) eqn:Efull;
      [|exact Hst].
    apply Nat.eqb_eq in Efull. lia.
  - subst handle. unfold onEvent.
    destruct (nth_error segments index) eqn:E.
    + assert (Hlt : index < List.length segments)
        by (apply nth_error_Some; congruence).
      apply Nat.ltb_lt in Hlt. rewrite Hlt in Hcount.
      cbn [List.length] in Hcount. cbn [processedCount]. lia.
    + apply nth_error_None in E. apply Nat.ltb_ge in E.
      rewrite E in Hcount. exact Hcount.
Qed.

(** Commands that each report once, none of them for segment [index], leave
    at least that one segment uncounted. *)
Lemma distinct_reports_leave_one (indices : list nat) (index : nat) :
  NoDup indices ->
  ~ In index indices ->
  index < List.length segments ->
  List.length (filter (fun k => k <? List.length segments) indices)
  < List.length segments.
Proof.
  intros Hnodup Hnotin Hlt.
  set (valid := filter (fun k => k <? List.length segments) indices).
  assert (Hnd : NoDup (index :: valid)).
  { constructor.
    - intro Hin. apply filter_In in Hin. tauto.
    - apply NoDup_filter. exact Hnodup. }
  assert (Hincl : incl (index :: valid) (seq 0 (List.length segments))).
  { intros k [<-|Hin]; apply in_seq.
    - lia.
    - apply filter_In in Hin. destruct Hin as [_ Hk].
      apply Nat.ltb_lt in Hk. lia. }
  pose proof (NoDup_incl_length Hnd Hincl) as Hlen.
  rewrite length_seq in Hlen. cbn in Hlen. lia.
Qed.

(** The chunks are pushed in the order in which the commands end. *)
Lemma ends_push_in_arrival_order (order : list nat) :
  forall st,
    (forall k, In k order -> k < List.length segments) ->
    chunks (fold_left handle (map EvEnd order) st)
    = chunks st
      ++ map (fun k => chunkFor outputDir baseName k
                         (nth k segments (mkSegment 0 None)))
             order
    /\ processedCount (fold_left handle (map EvEnd order) st)
       = processedCount st + List.length order.
Proof.
  induction order as [|k rest IH]; intros st Hvalid.
  - cbn. rewrite app_nil_r. split; [reflexivity | lia].
  - cbn [map fold_left].
    assert (Hk : k < List.length segments) by (apply Hvalid; now left).
    destruct (IH (handle st (EvEnd k))
                 (fun j Hj => Hvalid j (or_intror Hj))) as [Hc Hp].
    rewrite Hc, Hp. subst handle. unfold onEvent.
    rewrite (nth_error_nth' segments (mkSegment 0 None) Hk).
    cbn [chunks processedCount map].
    rewrite <- app_assoc. split; [reflexivity | cbn [List.length]; lia].
Qed.

End ExtractionFacts.

(** ** The transcription loop *)

Section LoopFacts.
Local Open Scope nat_scope.
Variable transcribeAudioFile : nat -> string -> TranscribeResult.

Let loop := transcribeLoop transcribeAudioFile.
Let text := chunkText transcribeAudioFile.

(** Iteration [k] occupies positions [2k] and [2k + 1] of the trace: the
    remote call, then the append of its text. *)
Lemma transcribeLoop_positions (chunks : list Chunk) :
  forall first k chunk,
    nth_error chunks k = Some chunk ->
    nth_error (loop first chunks) (2 * k) = Some (CallTranscribe (path chunk))
    /\ nth_error (loop first chunks) (2 * k + 1)
       = Some (AppendToFile (text (first + k) chunk ++ newline ++ newline)%string).
Proof.
  induction chunks as [|c rest IH]; intros first k chunk Hk.
  - destruct k; discriminate Hk.
  - destruct k as [|k].
    + injection Hk as ->. rewrite Nat.add_0_r. split; reflexivity.
    + cbn [nth_error] in Hk. destruct (IH (S first) k chunk Hk) as [Hcall Happ].
      replace (2 * S k) with (S (S (2 * k))) by lia.
      replace (first + S k) with (S first + k) by lia.
      split; [exact Hcall | exact Happ].
Qed.

Lemma fileWrites_transcribeLoop (chunks : list Chunk) :
  forall first k chunk,
    nth_error chunks k = Some chunk ->
    nth_error (fileWrites (loop first chunks)) k
    = Some (text (first + k) chunk ++ newline ++ newline)%string.
Proof.
  induction chunks as [|c rest IH]; intros first k chunk Hk.
  - destruct k; discriminate Hk.
  - destruct k as [|k].
    + injection Hk as ->. rewrite Nat.add_0_r. reflexivity.
    + cbn [nth_error] in Hk.
      replace (first + S k) with (S first + k) by lia.
      exact (IH (S first) k chunk Hk).
Qed.

Lemma fileWrites_transcribeLoop_length (chunks : list Chunk) :
  forall first,
    List.length (fileWrites (loop first chunks)) = List.length chunks.
Proof.
  induction chunks as [|c rest IH]; intro first; [reflexivity|].
  cbn. now rewrite <- (IH (S first)).
Qed.

Lemma transcribeCalls_transcribeLoop (chunks : list Chunk) :
  forall first, transcribeCalls (loop first chunks) = map path chunks.
Proof.
  induction chunks as [|c rest IH]; intro first; [reflexivity|].
  cbn. now rewrite <- (IH (S first)).
Qed.

End LoopFacts.

(** ** Claims about segments and extraction *)

Section SegmentClaims.
Local Open Scope string_scope.
Local Open Scope Q_scope.




(** C7 as stated fails: for an empty split-point sequence no segment is
    built, so the promise is never settled. *)
Lemma C7_counterexample :
  segmentsOf [] = []
  /\ segmentsOf [] <> [mkSegment 0 None]
  /\ splitAtSpecificPoints "chunks" "talk" [] [] = NeverSettles.
Proof. repeat split. discriminate. Qed.

(** C7 (amended): when the split-point sequence given to the segment
    extractor is empty, the extractor builds no segment at all: it starts no
    extraction command and its promise never settles, whatever happens. *)
Theorem C7_empty_split_points_no_segment :
  forall (outputDir baseName : string) (events : list FfmpegEvent),
    segmentsOf [] = []
    /\ extractCommands 0 (segmentsOf []) = []
    /\ splitAtSpecificPoints outputDir baseName [] events = NeverSettles.
Proof.
  intros outputDir baseName events. repeat split.
  unfold splitAtSpecificPoints.
  rewrite (no_segment_no_change outputDir baseName (segmentsOf []) events
             eq_refl).
  reflexivity.
Qed.

(** C5 as stated fails: with segment 0 failing and segment 1 extracted, the
    chunk of segment 1 is pushed but the caller only sees the rejection. *)
Lemma C5_counterexample :
  splitAtSpecificPoints "chunks" "talk" [65] [EvError 0 "boom"; EvEnd 1]
  = Rejects "Error creating chunk 0: boom"
  /\ chunks (fold_left (onEvent "chunks" "talk" (segmentsOf [65]))
                       [EvError 0 "boom"; EvEnd 1] initialExtractState)
     = [mkChunk "chunks/talk_chunk_001.mp3" 65 None].
Proof. split; vm_compute; reflexivity. Qed.

(** C5 (amended): the first failure while extracting a segment is reported
    with that segment's index, and it rejects the extraction as a whole: the
    caller receives no chunk, whichever segments were extracted before it or
    are extracted after it. *)
Theorem C5_first_failure_rejects_all :
  forall (outputDir baseName : string) (splitPoints : list Q)
         (before after : list FfmpegEvent) (index : nat) (message : string),
    NoDup (map eventIndex (before ++ EvError index message :: after)) ->
    Forall isEnd before ->
    (index < List.length (segmentsOf splitPoints))%nat ->
    splitAtSpecificPoints outputDir baseName splitPoints
                          (before ++ EvError index message :: after)
    = Rejects ("Error creating chunk " ++ natToString index ++ ": " ++ message).
Proof.
  intros outputDir baseName splitPoints before after index message
         Hnodup Hends Hindex.
  unfold splitAtSpecificPoints, observe.
  rewrite fold_left_app. cbn [fold_left].
  set (segments := segmentsOf splitPoints) in *.
  set (st := fold_left (onEvent outputDir baseName segments) before
                       initialExtractState).
  assert (Hpending : promise st = Pending).
  { apply ends_below_count_stay_pending; [exact Hends | reflexivity |].
    cbn [processedCount initialExtractState Nat.add].
    apply (distinct_reports_leave_one segments _ index).
    - rewrite map_app in Hnodup. exact (NoDup_app_remove_r _ _ Hnodup).
    - rewrite map_app in Hnodup. cbn [map eventIndex] in Hnodup.
      apply NoDup_remove_2 in Hnodup. intro Hin. apply Hnodup.
      apply in_or_app. now left.
    - exact Hindex. }
  rewrite (rejected_is_final outputDir baseName segments after _
             ("Error creating chunk " ++ natToString index ++ ": " ++ message)).
  - reflexivity.
  - unfold onEvent. destruct (nth_error segments index) eqn:E.
    + cbn [promise]. rewrite Hpending. reflexivity.
    + apply nth_error_None in E. lia.
Qed.

Lemma C5_first_failure_rejects_all_witness :
  NoDup (map eventIndex ([EvEnd 2] ++ EvError 0 "boom" :: [EvEnd 1]))
  /\ Forall isEnd [EvEnd 2]
  /\ (0 < List.length (segmentsOf [65; 130]%Q))%nat
  /\ splitAtSpecificPoints "chunks" "talk" [65; 130]
                           ([EvEnd 2] ++ EvError 0 "boom" :: [EvEnd 1])
     = Rejects "Error creating chunk 0: boom".
Proof.
  assert (Hnodup : NoDup (map eventIndex
                              ([EvEnd 2] ++ EvError 0 "boom" :: [EvEnd 1]))).
  { cbn. repeat constructor; cbn; intuition discriminate. }
  assert (Hends : Forall isEnd [EvEnd 2]) by (repeat constructor).
  assert (Hindex : (0 < List.length (segmentsOf [65; 130]%Q))%nat)
    by (cbn; lia).
  split; [exact Hnodup|]. split; [exact Hends|]. split; [exact Hindex|].
  exact (C5_first_failure_rejects_all "chunks" "talk" [65; 130]
           [EvEnd 2] [EvEnd 1] 0%nat "boom" Hnodup Hends Hindex).
Defined.

End SegmentClaims.

(** ** Claims about the run *)

Section RunClaims.
Local Open Scope string_scope.

(** When every extraction command ends, the promise resolves with the chunks
    in the order in which the commands ended. *)
Lemma splitAtSpecificPoints_arrival_order
      (outputDir baseName : string) (splitPoints : list Q) (order : list nat) :
  splitPoints <> [] ->
  (forall k, In k order -> (k < List.length (segmentsOf splitPoints))%nat) ->
  List.length order = List.length (segmentsOf splitPoints) ->
  NoDup order ->
  splitAtSpecificPoints outputDir baseName splitPoints (map EvEnd order)
  = Resolves
      (map (fun k => chunkFor outputDir baseName k
                       (nth k (segmentsOf splitPoints) (mkSegment 0 None)))
           order).
Proof.
  intros Hne Hvalid Hlen Hnodup.
  destruct (exists_last (l := order)) as [front [final ->]].
  { intro E. rewrite E, (segmentsOf_length _ Hne) in Hlen. discriminate Hlen. }
  unfold splitAtSpecificPoints, observe.
  rewrite map_app, fold_left_app. cbn [map fold_left].
  set (segments := segmentsOf splitPoints) in *.
  set (st := fold_left (onEvent outputDir baseName segments) (map EvEnd front)
                       initialExtractState).
  assert (Hfront : forall k, In k front -> (k < List.length segments)%nat)
    by (intros k Hk; apply Hvalid, in_or_app; now left).
  assert (Hfinal : (final < List.length segments)%nat)
    by (apply Hvalid, in_or_app; right; now left).
  destruct (ends_push_in_arrival_order outputDir baseName segments front
              initialExtractState Hfront) as [Hchunks Hcount].
  fold st in Hchunks, Hcount. cbn [chunks processedCount initialExtractState
                                     app Nat.add] in Hchunks, Hcount.
  assert (Hpending : promise st = Pending).
  { apply ends_below_count_stay_pending.
    - clear. induction front; constructor; [exact I | assumption].
    - reflexivity.
    - cbn [processedCount initialExtractState Nat.add].
      replace (map eventIndex (map EvEnd front)) with front
        by (clear; induction front as [|a l IH]; cbn; [|rewrite <- IH]; reflexivity).
      apply (distinct_reports_leave_one segments front final).
      + exact (NoDup_app_remove_r _ _ Hnodup).
      + apply NoDup_remove_2 in Hnodup. rewrite app_nil_r in Hnodup.
        exact Hnodup.
      + exact Hfinal. }
  unfold onEvent. rewrite (nth_error_nth' segments (mkSegment 0 None) Hfinal).
  cbn [promise chunks]. rewrite Hcount, Hpending, Hchunks.
  rewrite length_app in Hlen. cbn [List.length] in Hlen.
  replace (S (List.length front) =? List.length segments)%nat with true
    by (symmetry; apply Nat.eqb_eq; lia).
  cbn [settle]. rewrite map_app. reflexivity.
Qed.

(** C1: on the split points [65, 130] with the extraction of the short final
    segment ending first, the chunks reach the transcription loop in the
    order 2, 0, 1, and the entry of the final segment is the first one
    written to the output.  Within the loop each entry is appended before the
    next remote call is made. *)
Theorem C1_completion_order_reaches_output :
  let splitting :=
    splitAtSpecificPoints "chunks" "talk" [65; 130]%Q [EvEnd 2; EvEnd 0; EvEnd 1] in
  let trace := transcribeChunks secondCallFails splitting in
  map segmentBounds (segmentsOf [65; 130]%Q)
  = [(0, Some 65); (65, Some 130); (130, None)]%Q
  /\ splitting
     = Resolves [mkChunk "chunks/talk_chunk_002.mp3" 130 None;
                 mkChunk "chunks/talk_chunk_000.mp3" 0 (Some 65%Q);
                 mkChunk "chunks/talk_chunk_001.mp3" 65 (Some 130%Q)]
  /\ trace
     = [CallTranscribe "chunks/talk_chunk_002.mp3";
        AppendToFile ("[02:10 - end]" ++ newline ++ "hello" ++ newline ++ newline);
        CallTranscribe "chunks/talk_chunk_000.mp3";
        AppendToFile ("[00:00 - 01:05]" ++ newline
                      ++ "[ERROR: Transcription error: timeout]"
                      ++ newline ++ newline);
        CallTranscribe "chunks/talk_chunk_001.mp3";
        AppendToFile ("[01:05 - 02:10]" ++ newline ++ "hello" ++ newline ++ newline)].
Proof. repeat split; vm_compute; reflexivity. Qed.

(** C6: if the remote call fails for one chunk, the loop writes for that
    chunk an entry whose text is "[ERROR: <message>]" under the chunk's
    header and goes on: every chunk is sent to the remote service, the output
    has exactly one entry per chunk, in order, and the other entries are what
    their own calls gave. *)
Theorem C6_failed_chunk_is_marked_and_skipped :
  forall (transcribeAudioFile : nat -> string -> TranscribeResult)
         (chunks : list Chunk) (i : nat) (chunk : Chunk) (message : string),
    nth_error chunks i = Some chunk ->
    transcribeAudioFile i (path chunk) = TranscribeFailed message ->
    let trace := transcribeLoop transcribeAudioFile 0 chunks in
    transcribeCalls trace = map path chunks
    /\ List.length (fileWrites trace) = List.length chunks
    /\ nth_error (fileWrites trace) i
       = Some ((chunkHeader chunk ++ newline ++ "[ERROR: " ++ message ++ "]")
               ++ newline ++ newline)
    /\ (forall k other,
           nth_error chunks k = Some other ->
           nth_error (fileWrites trace) k
           = Some (chunkText transcribeAudioFile k other ++ newline ++ newline)).
Proof.
  intros transcribeAudioFile chunks i chunk message Hchunk Hfail trace.
  subst trace. repeat split.
  - apply transcribeCalls_transcribeLoop.
  - apply fileWrites_transcribeLoop_length.
  - rewrite (fileWrites_transcribeLoop transcribeAudioFile chunks 0 i chunk Hchunk).
    cbn [Nat.add]. unfold chunkText. rewrite Hfail. reflexivity.
  - intros k other Hother.
    exact (fileWrites_transcribeLoop transcribeAudioFile chunks 0 k other Hother).
Qed.

Lemma C6_failed_chunk_is_marked_and_skipped_witness :
  let chunks :=
    [mkChunk "chunks/talk_chunk_000.mp3" 0 (Some 65%Q);
     mkChunk "chunks/talk_chunk_001.mp3" 65 (Some 130%Q);
     mkChunk "chunks/talk_chunk_002.mp3" 130 None] in
  let trace := transcribeLoop secondCallFails 0 chunks in
  nth_error chunks 1 = Some (mkChunk "chunks/talk_chunk_001.mp3" 65 (Some 130%Q))
  /\ secondCallFails 1 "chunks/talk_chunk_001.mp3"
     = TranscribeFailed "Transcription error: timeout"
  /\ List.length (fileWrites trace) = 3%nat
  /\ nth_error (fileWrites trace) 1
     = Some ("[01:05 - 02:10]" ++ newline
             ++ "[ERROR: Transcription error: timeout]" ++ newline ++ newline)%string.
Proof.
  intros chunks trace.
  assert (Hchunk : nth_error chunks 1
                   = Some (mkChunk "chunks/talk_chunk_001.mp3" 65 (Some 130%Q)))
    by reflexivity.
  assert (Hfail : secondCallFails 1 "chunks/talk_chunk_001.mp3"
                  = TranscribeFailed "Transcription error: timeout")
    by reflexivity.
  destruct (C6_failed_chunk_is_marked_and_skipped
              secondCallFails chunks 1 _ _ Hchunk Hfail)
    as [_ [Hlen [Hentry _]]].
  split; [exact Hchunk|]. split; [exact Hfail|].
  split; [exact Hlen | exact Hentry].
Defined.

End RunClaims.

(** ** Claims about the configuration *)

Section ConfigurationClaims.
Local Open Scope string_scope.
Local Open Scope Q_scope.

(** C8 as stated fails: with a target of zero the scan runs, the planner
    returns both silence points, three extraction commands are started and
    the call resolves. *)
Lemma C8_counterexample :
  splitAtSilence
    (mkFfmpeg (ScanDone [5; 12] 20) [EvEnd 0; EvEnd 1; EvEnd 2]
              (SegmenterDone []))
    "chunks" "talk" 0
  = ([RunSilenceDetect;
      RunExtract 0 0 (Some 5); RunExtract 1 5 (Some 7); RunExtract 2 12 None],
     Resolves [mkChunk "chunks/talk_chunk_000.mp3" 0 (Some 5);
               mkChunk "chunks/talk_chunk_001.mp3" 5 (Some 12);
               mkChunk "chunks/talk_chunk_002.mp3" 12 None]).
Proof. vm_compute. reflexivity. Qed.

Lemma extractCommands_are_extractions (segments : list Segment) :
  forall index,
    List.length (extractCommands index segments) = List.length segments
    /\ Forall (fun run => exists i ss t, run = RunExtract i ss t)
              (extractCommands index segments).
Proof.
  induction segments as [|segment rest IH]; intro index.
  - split; [reflexivity | constructor].
  - destruct (IH (S index)) as [Hlen Hall]. cbn [extractCommands List.length].
    split; [now rewrite Hlen|].
    constructor; [|exact Hall]. now eexists; eexists; eexists.
Qed.

(** C8 (amended): an invocation with targetChunkSeconds <= 0 is not
    rejected: there is no validation, the silence scan is started first as
    for any other target, and after a scan that yields chronological,
    non-negative silence points the planner commits every silence point as a
    cut.  When there is a silence point, the extraction is then started, with
    one extraction command per segment (one more than there are silence
    points), the first one from offset 0, and the call's outcome is that of
    the extraction; only when there is no silence point is the segmenter
    started instead. *)
Theorem C8_nonpositive_target_is_not_rejected :
  forall (world : Ffmpeg) (outputDir baseName : string)
         (maxChunkDuration : Q) (silencePoints : list Q) (audioDuration : Q),
    maxChunkDuration <= 0 ->
    scan world = ScanDone silencePoints audioDuration ->
    chronological silencePoints ->
    (forall p, In p silencePoints -> 0 <= p) ->
    calculateOptimalSplitPoints silencePoints audioDuration maxChunkDuration
    = silencePoints
    /\ splitAtSilence world outputDir baseName maxChunkDuration
       = match silencePoints with
         | [] =>
             ([RunSilenceDetect; RunSegmenter maxChunkDuration],
              splitByTime outputDir baseName maxChunkDuration (segmenter world))
         | _ :: _ =>
             (RunSilenceDetect :: extractCommands 0 (segmentsOf silencePoints),
              splitAtSpecificPoints outputDir baseName silencePoints
                                    (extraction world))
         end
    /\ (silencePoints <> [] ->
        exists first extractions,
          fst (splitAtSilence world outputDir baseName maxChunkDuration)
          = RunSilenceDetect :: RunExtract 0 0 first :: extractions
          /\ List.length extractions = List.length silencePoints
          /\ Forall (fun run => exists i ss t, run = RunExtract i ss t)
                    extractions).
Proof.
  intros world outputDir baseName maxChunkDuration silencePoints audioDuration
         Hmax Hscan Hchron Hnonneg.
  assert (Hplan : calculateOptimalSplitPoints silencePoints audioDuration
                                              maxChunkDuration = silencePoints).
  { unfold calculateOptimalSplitPoints.
    apply splitLoop_takes_every_point; [exact Hmax|].
    destruct silencePoints as [|p rest]; [exact I|].
    split; [apply Hnonneg; now left | exact Hchron]. }
  assert (Hrun : splitAtSilence world outputDir baseName maxChunkDuration
                 = match silencePoints with
                   | [] =>
                       ([RunSilenceDetect; RunSegmenter maxChunkDuration],
                        splitByTime outputDir baseName maxChunkDuration
                                    (segmenter world))
                   | _ :: _ =>
                       (RunSilenceDetect
                          :: extractCommands 0 (segmentsOf silencePoints),
                        splitAtSpecificPoints outputDir baseName silencePoints
                                              (extraction world))
                   end).
  { unfold splitAtSilence. rewrite Hscan, Hplan.
    destruct silencePoints; reflexivity. }
  split; [exact Hplan|]. split; [exact Hrun|].
  intro Hne. rewrite Hrun.
  destruct silencePoints as [|p rest]; [contradiction|].
  cbn [fst]. rewrite segmentsOf_nonempty by discriminate.
  cbn [closedSegments app extractCommands start end_].
  eexists; eexists. split; [reflexivity|].
  destruct (extractCommands_are_extractions
              (closedSegments p rest ++ [mkSegment (last (p :: rest) 0) None])%list
              1) as [Hlen Hall].
  split; [|exact Hall].
  rewrite Hlen, length_app. cbn [List.length].
  assert (L : forall l c, List.length (closedSegments c l) = List.length l).
  { induction l as [|a l IH]; intro c; cbn; [reflexivity | now rewrite IH]. }
  rewrite L. lia.
Qed.

Lemma C8_nonpositive_target_is_not_rejected_witness :
  let world := mkFfmpeg (ScanDone [5; 12] 20) [EvEnd 0; EvEnd 1; EvEnd 2]
                        (SegmenterDone []) in
  0 <= 0
  /\ scan world = ScanDone [5; 12] 20
  /\ chronological [5; 12]
  /\ (forall p, In p [5; 12] -> 0 <= p)
  /\ calculateOptimalSplitPoints [5; 12] 20 0 = [5; 12]
  /\ splitAtSilence world "chunks" "talk" 0
     = (RunSilenceDetect :: extractCommands 0 (segmentsOf [5; 12]),
        splitAtSpecificPoints "chunks" "talk" [5; 12] (extraction world))
  /\ fst (splitAtSilence world "chunks" "talk" 0)
     = [RunSilenceDetect;
        RunExtract 0 0 (Some 5); RunExtract 1 5 (Some 7); RunExtract 2 12 None].
Proof.
  intro world.
  assert (Hmax : 0 <= 0) by (intro E; discriminate E).
  assert (Hscan : scan world = ScanDone [5; 12] 20) by reflexivity.
  assert (Hchron : chronological [5; 12])
    by (cbn; split; [intro E; discriminate E | exact I]).
  assert (Hnonneg : forall p, In p [5; 12] -> 0 <= p).
  { intros p Hin. cbn in Hin.
    repeat (destruct Hin as [<-|Hin]; [intro E; discriminate E|]).
    destruct Hin. }
  destruct (C8_nonpositive_target_is_not_rejected
              world "chunks" "talk" 0 [5; 12] 20 Hmax Hscan Hchron Hnonneg)
    as [Hplan [Hrun _]].
  split; [exact Hmax|]. split; [exact Hscan|]. split; [exact Hchron|].
  split; [exact Hnonneg|]. split; [exact Hplan|]. split; [exact Hrun|].
  vm_compute. reflexivity.
Defined.

End ConfigurationClaims.

(** ** Further properties of the planner *)

Section PlannerProperties.
Open Scope Q_scope.

Lemma splitLoop_subsequence (maxChunkDuration : Q) points :
  forall cursor, Subsequence (splitLoop cursor maxChunkDuration points) points.
Proof.
  induction points as [|p rest IH]; intro cursor; [constructor|].
  rewrite splitLoop_cons.
  destruct (Qle_bool (maxChunkDuration * (8 # 10)) (p - cursor)).
  - apply Subsequence_take, IH.
  - apply Subsequence_skip, IH.
Qed.

(** X1: The cuts are silence points, in the order of the scan: the planner only
    leaves silence points out, it never invents, repeats or reorders one. *)
Theorem planner_returns_subsequence :
  forall (silencePoints : list Q) (totalDuration maxChunkDuration : Q),
    Subsequence
      (calculateOptimalSplitPoints silencePoints totalDuration maxChunkDuration)
      silencePoints.
Proof.
  intros. unfold calculateOptimalSplitPoints. apply splitLoop_subsequence.
Qed.

Lemma splitLoop_gapsAtLeast (maxChunkDuration : Q) points :
  forall cursor,
    gapsAtLeast (maxChunkDuration * (8 # 10))
                (cursor :: splitLoop cursor maxChunkDuration points).
Proof.
  induction points as [|p rest IH]; intro cursor; [exact I|].
  rewrite splitLoop_cons.
  destruct (Qle_bool (maxChunkDuration * (8 # 10)) (p - cursor)) eqn:E.
  - apply Qle_bool_iff in E. split; [exact E | apply IH].
  - apply IH.
Qed.

(** X2: No chunk between two cuts is shorter than 80% of the target: the first
    cut is at least [0.8 * maxChunkDuration] after the start and each cut at
    least that much after the one before. *)
Theorem planner_chunks_at_least_80_percent :
  forall (silencePoints : list Q) (totalDuration maxChunkDuration : Q),
    gapsAtLeast (maxChunkDuration * (8 # 10))
      (0 :: calculateOptimalSplitPoints silencePoints totalDuration
                                        maxChunkDuration).
Proof.
  intros. unfold calculateOptimalSplitPoints. apply splitLoop_gapsAtLeast.
Qed.

(** Where the two number representations part: at target 30 the point 48.3
    is exactly 24 after the cut at 24.3, and is a cut in exact arithmetic; in
    binary64 the difference is computed just below 24 and the point is
    passed over. *)
Example planner_on_a_rounded_difference :
  calculateOptimalSplitPoints
    [3 # 10; 243 # 10; 483 # 10; 723 # 10] 100 30
  = [243 # 10; 483 # 10; 723 # 10]
  /\ calculateOptimalSplitPoints
       [3 / 10; 243 / 10; 483 / 10; 723 / 10]%float 100%float 30%float
     = [243 / 10; 723 / 10]%float.
Proof. split; vm_compute; reflexivity. Qed.

(** X4: The search for a better cut never finds one: once a silence point has
    passed the 80% test, the inner loop leaves its first iteration with that
    very point, whatever follows it and whatever the target is. *)
Theorem best_point_search_keeps_the_candidate :
  forall (currentTime maxChunkDuration silencePoint : Q) (later : list Q),
    Qle_bool (maxChunkDuration * (8 # 10)) (silencePoint - currentTime) = true ->
    lookForBestPoint currentTime maxChunkDuration silencePoint
                     (silencePoint :: later)
    = silencePoint.
Proof.
  intros currentTime maxChunkDuration silencePoint later Hopen.
  exact (lookForBestPoint_opening _ _ _ later Hopen).
Qed.

Lemma best_point_search_keeps_the_candidate_witness :
  Qle_bool (60 * (8 # 10)) (50 - 0) = true
  /\ lookForBestPoint 0 60 50 [50; 55; 58] = 50.
Proof.
  assert (Hopen : Qle_bool (60 * (8 # 10)) (50 - 0) = true) by reflexivity.
  split; [exact Hopen|].
  exact (best_point_search_keeps_the_candidate 0 60 50 [55; 58] Hopen).
Defined.

Lemma splitLoop_never_opens (maxChunkDuration : Q) points :
  forall cursor,
    (forall p, In p points -> p - cursor < maxChunkDuration * (8 # 10)) ->
    splitLoop cursor maxChunkDuration points = [].
Proof.
  induction points as [|p rest IH]; intros cursor Hnear; [reflexivity|].
  rewrite splitLoop_cons.
  replace (Qle_bool (maxChunkDuration * (8 # 10)) (p - cursor)) with false.
  - apply IH. intros q Hq. apply Hnear. now right.
  - symmetry. apply Qle_bool_false. apply Hnear. now left.
Qed.

(** X5: When every silence point found lies within the first 80% of the target
    (in particular when none was found), [splitAtSilence] starts no extraction
    command: after the scan it runs the segmenter with the same chunk
    duration and its outcome is that of [splitByTime]. *)
Theorem splitAtSilence_falls_back_to_time :
  forall (world : Ffmpeg) (outputDir baseName : string)
         (maxChunkDuration : Q) (silencePoints : list Q) (audioDuration : Q),
    scan world = ScanDone silencePoints audioDuration ->
    (forall p, In p silencePoints -> p < maxChunkDuration * (8 # 10)) ->
    splitAtSilence world outputDir baseName maxChunkDuration
    = ([RunSilenceDetect; RunSegmenter maxChunkDuration],
       splitByTime outputDir baseName maxChunkDuration (segmenter world)).
Proof.
  intros world outputDir baseName maxChunkDuration silencePoints audioDuration
         Hscan Hnear.
  unfold splitAtSilence, calculateOptimalSplitPoints. rewrite Hscan.
  rewrite splitLoop_never_opens; [reflexivity|].
  intros p Hp. specialize (Hnear p Hp). cbn [nzero JsNumber_Q]. lra.
Qed.

End PlannerProperties.

(** ** Further properties of the segment list *)

Section SegmentProperties.
Local Open Scope string_scope.
Local Open Scope Q_scope.

Lemma splitAtSilence_falls_back_to_time_witness :
  let world := mkFfmpeg (ScanDone [10; 20] 100) []
                        (SegmenterDone ["talk_chunk_000.mp3"]) in
  scan world = ScanDone [10; 20] 100
  /\ (forall p, In p [10; 20] -> p < 60 * (8 # 10))
  /\ splitAtSilence world "chunks" "talk" 60
     = ([RunSilenceDetect; RunSegmenter 60],
        splitByTime "chunks" "talk" 60 (segmenter world)).
Proof.
  intro world.
  assert (Hscan : scan world = ScanDone [10; 20] 100) by reflexivity.
  assert (Hnear : forall p, In p [10; 20] -> p < 60 * (8 # 10)).
  { intros p Hin. cbn in Hin.
    repeat (destruct Hin as [<-|Hin]; [reflexivity|]). destruct Hin. }
  split; [exact Hscan|]. split; [exact Hnear|].
  exact (splitAtSilence_falls_back_to_time world "chunks" "talk" 60
           [10; 20] 100 Hscan Hnear).
Defined.

Lemma closedSegments_starts_ends (splitPoints : list Q) :
  forall previous,
    map start (closedSegments previous splitPoints)
    = removelast (previous :: splitPoints)
    /\ map end_ (closedSegments previous splitPoints) = map Some splitPoints.
Proof.
  induction splitPoints as [|p rest IH]; intro previous; [split; reflexivity|].
  destruct (IH p) as [Hs He]. cbn [closedSegments map start end_].
  rewrite Hs, He. split; reflexivity.
Qed.

(** X6: Segment [i] starts where segment [i - 1] ends: for a non-empty sequence
    of split points the starts of the segments are [0] followed by the split
    points, and their ends are the split points followed by [null]. *)
Theorem segments_start_and_end_at_the_split_points :
  forall splitPoints : list Q,
    splitPoints <> [] ->
    map start (segmentsOf splitPoints) = 0 :: splitPoints
    /\ map end_ (segmentsOf splitPoints) = (map Some splitPoints ++ [None])%list.
Proof.
  intros splitPoints Hne. rewrite (segmentsOf_nonempty _ Hne).
  rewrite !map_app. destruct (closedSegments_starts_ends splitPoints 0) as [Hs He].
  rewrite Hs, He. split; [|reflexivity].
  cbn [map start]. clear Hs He.
  change ((removelast (0 :: splitPoints) ++ [last splitPoints 0])%list
          = 0 :: splitPoints).
  destruct splitPoints as [|p rest]; [contradiction|].
  change (last (p :: rest) 0) with (last (0 :: p :: rest) 0).
  symmetry. apply app_removelast_last. discriminate.
Qed.

Lemma segments_start_and_end_at_the_split_points_witness :
  [65; 130] <> []
  /\ map start (segmentsOf [65; 130]) = 0 :: [65; 130]
  /\ map end_ (segmentsOf [65; 130]) = (map Some [65; 130] ++ [None])%list.
Proof.
  assert (Hne : [65; 130] <> []) by discriminate.
  split; [exact Hne|].
  exact (segments_start_and_end_at_the_split_points [65; 130] Hne).
Defined.






Lemma extractCommands_seeksForward (splitPoints : list Q) :
  forall previous index final,
    0 <= previous ->
    0 <= final ->
    increasingFrom previous splitPoints ->
    Forall seeksForward
           (extractCommands index
              (closedSegments previous splitPoints ++ [mkSegment final None])%list).
Proof.
  induction splitPoints as [|p rest IH]; intros previous index final Hprev Hfinal Hinc.
  - cbn. repeat constructor. exact Hfinal.
  - destruct Hinc as [Hlt Hrest].
    cbn [closedSegments app extractCommands start end_]. constructor.
    + cbn. split; [exact Hprev | lra].
    + apply IH; [lra | exact Hfinal | exact Hrest].
Qed.

(** X8: With a positive target, [splitAtSilence] never asks ffmpeg to seek before
    the start of the audio nor to extract a segment of zero or negative
    length, whatever the scan reported. *)
Theorem splitAtSilence_commands_seek_forward :
  forall (world : Ffmpeg) (outputDir baseName : string) (maxChunkDuration : Q),
    0 < maxChunkDuration ->
    Forall seeksForward
           (fst (splitAtSilence world outputDir baseName maxChunkDuration)).
Proof.
  intros world outputDir baseName maxChunkDuration Hpos.
  unfold splitAtSilence. destruct (scan world) as [message|silencePoints audioDuration].
  - repeat constructor.
  - destruct (List.length _ =? 0)%nat eqn:E; [repeat constructor|].
    cbn [fst]. constructor; [exact I|].
    unfold calculateOptimalSplitPoints in *.
    pose proof (splitLoop_increasingFrom maxChunkDuration silencePoints Hpos 0)
      as Hinc.
    cbn [nzero JsNumber_Q] in *.
    destruct (splitLoop 0 maxChunkDuration silencePoints) as [|p rest] eqn:Eplan;
      [discriminate E|].
    rewrite segmentsOf_nonempty by discriminate.
    apply extractCommands_seeksForward; [lra | | exact Hinc].
    assert (Hin : In (last (p :: rest) 0) (p :: rest)).
    { clear. generalize p. induction rest as [|q rest IH]; intro a.
      - now left.
      - right. apply (IH q). }
    pose proof (increasingFrom_above _ _ _ Hinc Hin). lra.
Qed.

Lemma splitAtSilence_commands_seek_forward_witness :
  0 < 60
  /\ Forall seeksForward
       (fst (splitAtSilence
               (mkFfmpeg (ScanDone [10; 40; 65; 95; 130] 140) []
                         (SegmenterDone []))
               "chunks" "talk" 60)).
Proof.
  assert (Hpos : 0 < 60) by reflexivity.
  split; [exact Hpos|].
  exact (splitAtSilence_commands_seek_forward _ "chunks" "talk" 60 Hpos).
Defined.

End SegmentProperties.

(** ** Further properties of the extraction *)

Section FileNameProperties.
Local Open Scope string_scope.

Lemma append_cancel_l (a x y : string) : a ++ x = a ++ y -> x = y.
Proof.
  induction a as [|c a IH]; cbn; intro E; [exact E|].
  injection E as E. exact (IH E).
Qed.

Lemma length_append (x y : string) :
  String.length (x ++ y) = (String.length x + String.length y)%nat.
Proof. induction x as [|c x IH]; cbn; [reflexivity | now rewrite IH]. Qed.

Lemma append_cancel_r (s x y : string) : x ++ s = y ++ s -> x = y.
Proof.
  intro E.
  assert (Hlen : String.length x = String.length y).
  { apply (f_equal String.length) in E. rewrite !length_append in E. lia. }
  revert y E Hlen. induction x as [|c x IH]; intros [|d y] E Hlen;
    try discriminate Hlen; [reflexivity|].
  cbn in E. injection E as -> E. f_equal. apply IH; [exact E|].
  cbn in Hlen. lia.
Qed.

Lemma readNat_leading_zeros (k : nat) (s : string) :
  readNat (string_of_list_ascii (repeat "0"%char k) ++ s) = readNat s.
Proof.
  induction k as [|k IH]; [reflexivity|].
  unfold readNat in *. cbn [repeat string_of_list_ascii append].
  cbn [NilEmpty.uint_of_string].
  destruct (NilEmpty.uint_of_string
              (string_of_list_ascii (repeat "0"%char k) ++ s)) as [d|] eqn:E;
    cbn in IH |- *; exact IH.
Qed.

Lemma readNat_padded (n : nat) :
  readNat (padStart 3 "0" (natToString n)) = Some n.
Proof.
  unfold padStart. rewrite readNat_leading_zeros.
  unfold readNat, natToString. rewrite NilEmpty.usu. cbn.
  now rewrite Unsigned.of_to.
Qed.

Lemma chunk_paths_hold_the_index (outputDir baseName : string) (i j : nat) :
  pathJoin outputDir (chunkFileName baseName i)
  = pathJoin outputDir (chunkFileName baseName j) ->
  i = j.
Proof.
  intro E. unfold pathJoin, chunkFileName in E.
  apply append_cancel_l in E. apply (append_cancel_l "/") in E.
  apply append_cancel_l in E. apply (append_cancel_l "_chunk_") in E.
  apply append_cancel_r in E.
  apply (f_equal readNat) in E. rewrite !readNat_padded in E.
  now injection E.
Qed.

(** X9: The index can be read back from a chunk's file name, so two different
    segments are never written to the same file, for any number of segments
    (also past 999, where the padding no longer applies). *)
Theorem chunk_paths_differ_for_different_segments :
  forall (outputDir baseName : string) (i j : nat),
    pathJoin outputDir (chunkFileName baseName i)
    = pathJoin outputDir (chunkFileName baseName j) ->
    i = j.
Proof.
  intros outputDir baseName i j E.
  exact (chunk_paths_hold_the_index outputDir baseName i j E).
Qed.

Lemma chunk_paths_differ_for_different_segments_witness :
  pathJoin "chunks" (chunkFileName "talk" 7)
  = pathJoin "chunks" (chunkFileName "talk" 7)
  /\ 7%nat = 7%nat.
Proof.
  assert (E : pathJoin "chunks" (chunkFileName "talk" 7)
              = pathJoin "chunks" (chunkFileName "talk" 7)) by reflexivity.
  split; [exact E|].
  exact (chunk_paths_differ_for_different_segments "chunks" "talk" 7 7 E).
Defined.

End FileNameProperties.

Section PromiseProperties.
Local Open Scope string_scope.
Local Open Scope nat_scope.

Lemma map_EvEnd_indices (order : list nat) :
  map eventIndex (map EvEnd order) = order.
Proof.
  induction order as [|k rest IH]; cbn; [reflexivity | now rewrite IH].
Qed.

Lemma map_EvEnd_all_end (order : list nat) : Forall isEnd (map EvEnd order).
Proof. induction order; constructor; [exact I | assumption]. Qed.

Lemma map_nth_seq {A B : Type} (f : nat -> A -> B) (d : A) (l : list A) :
  forall first,
    map (fun k => f k (nth (k - first) l d)) (seq first (List.length l))
    = map (fun p => f (fst p) (snd p)) (combine (seq first (List.length l)) l).
Proof.
  induction l as [|a l IH]; intro first; [reflexivity|].
  cbn [List.length seq map combine fst snd]. rewrite Nat.sub_diag. f_equal.
  rewrite <- (IH (S first)). apply map_ext_in. intros k Hk.
  apply in_seq in Hk. replace (k - first) with (S (k - S first)) by lia.
  reflexivity.
Qed.

Lemma chunksInSegmentOrder_bounds (outputDir baseName : string) segments :
  map chunkBounds (chunksInSegmentOrder outputDir baseName segments)
  = map segmentBounds segments.
Proof.
  unfold chunksInSegmentOrder. rewrite map_map.
  rewrite (map_ext _ (fun k => segmentBounds (nth (k - 0) segments (mkSegment 0 None))))
    by (intro k; rewrite Nat.sub_0_r; reflexivity).
  rewrite (map_nth_seq (fun _ s => segmentBounds s) (mkSegment 0 None) segments 0).
  generalize 0 at 1. induction segments as [|s rest IH]; intro first;
    [reflexivity|].
  cbn [List.length seq combine map fst snd]. f_equal. apply IH.
Qed.

(** X10: When every extraction command ends, each once, the promise resolves with
    one chunk per segment, in the order in which the commands ended: the
    result is a rearrangement of the chunks in segment order, none lost and
    none repeated, and no two of them share a file. *)
Theorem extraction_resolves_in_completion_order :
  forall (outputDir baseName : string) (splitPoints : list Q) (order : list nat),
    splitPoints <> [] ->
    (forall k, In k order -> k < List.length (segmentsOf splitPoints)) ->
    List.length order = List.length (segmentsOf splitPoints) ->
    NoDup order ->
    exists result,
      splitAtSpecificPoints outputDir baseName splitPoints (map EvEnd order)
      = Resolves result
      /\ result
         = map (fun k => chunkFor outputDir baseName k
                           (nth k (segmentsOf splitPoints) (mkSegment 0 None)))
               order
      /\ Permutation result
           (chunksInSegmentOrder outputDir baseName (segmentsOf splitPoints))
      /\ NoDup (map path result).
Proof.
  intros outputDir baseName splitPoints order Hne Hvalid Hlen Hnodup.
  eexists. split; [|split; [reflexivity|]].
  - apply splitAtSpecificPoints_arrival_order; assumption.
  - assert (Hperm : Permutation order
                      (seq 0 (List.length (segmentsOf splitPoints)))).
    { apply NoDup_Permutation_bis; [exact Hnodup | |].
      - rewrite length_seq. lia.
      - intros k Hk. apply in_seq. specialize (Hvalid k Hk). lia. }
    split.
    + unfold chunksInSegmentOrder. apply Permutation_map. exact Hperm.
    + rewrite map_map. cbn [path chunkFor].
      clear Hperm Hlen Hvalid.
      induction order as [|k rest IH]; [constructor|].
      inversion Hnodup as [|? ? Hnotin Hrest]; subst.
      cbn [map]. constructor; [|exact (IH Hrest)].
      intro Hin. apply in_map_iff in Hin. destruct Hin as [j [Hpath Hj]].
      apply chunk_paths_hold_the_index in Hpath. subst j. exact (Hnotin Hj).
Qed.

Lemma extraction_resolves_in_completion_order_witness :
  [65; 130]%Q <> []
  /\ (forall k, In k [2; 0; 1] -> k < List.length (segmentsOf [65; 130]%Q))
  /\ List.length [2; 0; 1] = List.length (segmentsOf [65; 130]%Q)
  /\ NoDup [2; 0; 1]
  /\ exists result,
      splitAtSpecificPoints "chunks" "talk" [65; 130]%Q (map EvEnd [2; 0; 1])
      = Resolves result
      /\ result
         = map (fun k => chunkFor "chunks" "talk" k
                           (nth k (segmentsOf [65; 130]%Q) (mkSegment 0 None)))
               [2; 0; 1]
      /\ Permutation result
           (chunksInSegmentOrder "chunks" "talk" (segmentsOf [65; 130]%Q))
      /\ NoDup (map path result).
Proof.
  assert (Hne : [65; 130]%Q <> []) by discriminate.
  assert (Hvalid : forall k, In k [2; 0; 1] ->
                             k < List.length (segmentsOf [65; 130]%Q)).
  { intros k Hin. cbn in Hin |- *.
    repeat (destruct Hin as [<-|Hin]; [lia|]). destruct Hin. }
  assert (Hlen : List.length [2; 0; 1] = List.length (segmentsOf [65; 130]%Q))
    by reflexivity.
  assert (Hnodup : NoDup [2; 0; 1]).
  { repeat constructor; cbn; intuition discriminate. }
  split; [exact Hne|]. split; [exact Hvalid|]. split; [exact Hlen|].
  split; [exact Hnodup|].
  exact (extraction_resolves_in_completion_order "chunks" "talk" [65; 130]%Q
           [2; 0; 1] Hne Hvalid Hlen Hnodup).
Defined.

(** X11: When the commands end in segment order, chunk [i] is the chunk of segment
    [i]: the resolved chunks carry exactly the bounds of the segments, in
    order. *)
Theorem extraction_in_segment_order_when_commands_end_in_order :
  forall (outputDir baseName : string) (splitPoints : list Q),
    splitPoints <> [] ->
    splitAtSpecificPoints outputDir baseName splitPoints
      (map EvEnd (seq 0 (List.length (segmentsOf splitPoints))))
    = Resolves (chunksInSegmentOrder outputDir baseName (segmentsOf splitPoints))
    /\ map chunkBounds
           (chunksInSegmentOrder outputDir baseName (segmentsOf splitPoints))
       = map segmentBounds (segmentsOf splitPoints).
Proof.
  intros outputDir baseName splitPoints Hne. split.
  - apply splitAtSpecificPoints_arrival_order.
    + exact Hne.
    + intros k Hk. apply in_seq in Hk. lia.
    + apply length_seq.
    + apply seq_NoDup.
  - apply chunksInSegmentOrder_bounds.
Qed.

Lemma extraction_in_segment_order_when_commands_end_in_order_witness :
  [65; 130]%Q <> []
  /\ splitAtSpecificPoints "chunks" "talk" [65; 130]%Q
       (map EvEnd (seq 0 (List.length (segmentsOf [65; 130]%Q))))
     = Resolves (chunksInSegmentOrder "chunks" "talk" (segmentsOf [65; 130]%Q))
  /\ map chunkBounds
         (chunksInSegmentOrder "chunks" "talk" (segmentsOf [65; 130]%Q))
     = map segmentBounds (segmentsOf [65; 130]%Q).
Proof.
  assert (Hne : [65; 130]%Q <> []) by discriminate.
  split; [exact Hne|].
  exact (extraction_in_segment_order_when_commands_end_in_order
           "chunks" "talk" [65; 130]%Q Hne).
Defined.

(** X12: The promise waits for every command: as long as one segment's command
    has reported neither ['end'] nor ['error'], the promise is not settled,
    however many of the other commands have ended.  There is no timeout. *)
Theorem extraction_pending_while_a_command_is_silent :
  forall (outputDir baseName : string) (splitPoints : list Q)
         (events : list FfmpegEvent) (silent : nat),
    Forall isEnd events ->
    NoDup (map eventIndex events) ->
    silent < List.length (segmentsOf splitPoints) ->
    ~ In silent (map eventIndex events) ->
    splitAtSpecificPoints outputDir baseName splitPoints events = NeverSettles.
Proof.
  intros outputDir baseName splitPoints events silent Hends Hnodup Hsilent Hnotin.
  unfold splitAtSpecificPoints, observe.
  rewrite (ends_below_count_stay_pending outputDir baseName
             (segmentsOf splitPoints) events initialExtractState Hends eq_refl).
  - reflexivity.
  - cbn [processedCount initialExtractState Nat.add].
    exact (distinct_reports_leave_one (segmentsOf splitPoints) _ silent
             Hnodup Hnotin Hsilent).
Qed.

Lemma extraction_pending_while_a_command_is_silent_witness :
  Forall isEnd [EvEnd 2; EvEnd 0]
  /\ NoDup (map eventIndex [EvEnd 2; EvEnd 0])
  /\ 1 < List.length (segmentsOf [65; 130]%Q)
  /\ ~ In 1 (map eventIndex [EvEnd 2; EvEnd 0])
  /\ splitAtSpecificPoints "chunks" "talk" [65; 130]%Q [EvEnd 2; EvEnd 0]
     = NeverSettles.
Proof.
  assert (Hends : Forall isEnd [EvEnd 2; EvEnd 0]) by (repeat constructor).
  assert (Hnodup : NoDup (map eventIndex [EvEnd 2; EvEnd 0])).
  { cbn. repeat constructor; cbn; intuition discriminate. }
  assert (Hsilent : 1 < List.length (segmentsOf [65; 130]%Q)) by (cbn; lia).
  assert (Hnotin : ~ In 1 (map eventIndex [EvEnd 2; EvEnd 0])).
  { cbn. intuition discriminate. }
  split; [exact Hends|]. split; [exact Hnodup|]. split; [exact Hsilent|].
  split; [exact Hnotin|].
  exact (extraction_pending_while_a_command_is_silent "chunks" "talk"
           [65; 130]%Q [EvEnd 2; EvEnd 0] 1 Hends Hnodup Hsilent Hnotin).
Defined.

End PromiseProperties.

(** ** Properties of the timestamps *)

Section TimestampProperties.
Local Open Scope Q_scope.

Lemma Qfloor_unique (x : Q) (z : Z) :
  inject_Z z <= x -> x < inject_Z (z + 1) -> Qfloor x = z.
Proof.
  intros Hlow Hhigh. apply Z.le_antisymm.
  - pose proof (Qfloor_le x) as Hfl.
    assert (H : inject_Z (Qfloor x) < inject_Z (z + 1)) by lra.
    rewrite <- Zlt_Qlt in H. lia.
  - apply Qfloor_resp_le in Hlow. now rewrite Qfloor_Z in Hlow.
Qed.

Lemma Qfloor_minus_whole (x : Q) (k : Z) :
  Qfloor (x - inject_Z k) = (Qfloor x - k)%Z.
Proof.
  apply Qfloor_unique.
  - unfold Zminus. rewrite inject_Z_plus, inject_Z_opp.
    pose proof (Qfloor_le x). lra.
  - replace (Qfloor x - k + 1)%Z with ((Qfloor x + 1) + - k)%Z by lia.
    rewrite inject_Z_plus, inject_Z_opp. pose proof (Qlt_floor x). lra.
Qed.

Lemma Qfloor_div_whole (x : Q) (n : positive) :
  Qfloor (x / inject_Z (Zpos n)) = (Qfloor x / Zpos n)%Z.
Proof.
  destruct x as [a b]. unfold Qdiv, Qinv, Qmult, Qfloor, inject_Z. cbn.
  rewrite Z.mul_1_r, Pos2Z.inj_mul. symmetry. apply Z.div_div; lia.
Qed.

Lemma Qtrunc_of_nonnegative (x : Q) : 0 <= x -> Qtrunc x = Qfloor x.
Proof.
  intro H. unfold Qtrunc. apply Qle_bool_iff in H. now rewrite H.
Qed.

Lemma Qfloor_jsRemainder (x : Q) (n : positive) :
  0 <= x ->
  Qfloor (jsRemainder x (inject_Z (Zpos n))) = (Qfloor x mod Zpos n)%Z.
Proof.
  intro Hx. unfold jsRemainder.
  assert (Hq : 0 <= x / inject_Z (Zpos n)).
  { unfold Qdiv. apply Qmult_le_0_compat; [exact Hx|].
    unfold Qinv, inject_Z. cbn. discriminate. }
  rewrite (Qtrunc_of_nonnegative _ Hq), Qfloor_div_whole.
  rewrite (Qfloor_comp _ (x - inject_Z (Zpos n * (Qfloor x / Zpos n))))
    by (rewrite inject_Z_mult; reflexivity).
  rewrite Qfloor_minus_whole. rewrite Z.mod_eq by lia. reflexivity.
Qed.

Lemma formatTimestamp_of_floor (seconds : Q) :
  0 <= seconds ->
  formatTimestamp seconds
  = let z := Qfloor seconds in
    if (0 <? z / 3600)%Z
    then (padStart 2 "0" (intToString (z / 3600)) ++ ":"
          ++ padStart 2 "0" (intToString ((z mod 3600) / 60)) ++ ":"
          ++ padStart 2 "0" (intToString (z mod 60)))%string
    else (padStart 2 "0" (intToString ((z mod 3600) / 60)) ++ ":"
          ++ padStart 2 "0" (intToString (z mod 60)))%string.
Proof.
  intro Hnonneg. unfold formatTimestamp.
  change 3600 with (inject_Z (Zpos 3600)).
  change 60 with (inject_Z (Zpos 60)).
  rewrite !Qfloor_div_whole, !Qfloor_jsRemainder by exact Hnonneg.
  reflexivity.
Qed.

(** X13: A timestamp shows whole seconds only: for a non-negative number of
    seconds the fraction is dropped, not rounded, and the whole part [z] is
    shown as [z / 3600], [(z mod 3600) / 60] and [z mod 60], the hours field
    being present exactly when [z / 3600 > 0]. *)
Theorem formatTimestamp_shows_whole_seconds :
  forall seconds : Q,
    0 <= seconds ->
    formatTimestamp seconds
    = let z := Qfloor seconds in
      if (0 <? z / 3600)%Z
      then (padStart 2 "0" (intToString (z / 3600)) ++ ":"
            ++ padStart 2 "0" (intToString ((z mod 3600) / 60)) ++ ":"
            ++ padStart 2 "0" (intToString (z mod 60)))%string
      else (padStart 2 "0" (intToString ((z mod 3600) / 60)) ++ ":"
            ++ padStart 2 "0" (intToString (z mod 60)))%string.
Proof.
  intros seconds Hnonneg. exact (formatTimestamp_of_floor seconds Hnonneg).
Qed.

Lemma formatTimestamp_shows_whole_seconds_witness :
  0 <= 7384 + (9 # 10)
  /\ formatTimestamp (7384 + (9 # 10)) = "02:03:04"%string.
Proof.
  assert (Hnonneg : 0 <= 7384 + (9 # 10)) by (intro E; discriminate E).
  split; [exact Hnonneg|].
  rewrite (formatTimestamp_shows_whole_seconds _ Hnonneg). reflexivity.
Defined.

Lemma two_digits_length (n : nat) :
  (n < 100)%nat ->
  String.length (padStart 2 "0" (intToString (Z.of_nat n))) = 2%nat.
Proof.
  intro H.
  do 100 (destruct n as [|n]; [reflexivity|]). lia.
Qed.

Lemma two_digits_length_Z (z : Z) :
  (0 <= z < 100)%Z ->
  String.length (padStart 2 "0" (intToString z)) = 2%nat.
Proof.
  intro H. rewrite <- (Z2Nat.id z) by lia. apply two_digits_length. lia.
Qed.

(** X14: Below one hour a timestamp is exactly five characters, [MM:SS]; from one
    hour up to a hundred hours it is exactly eight, [HH:MM:SS]. *)
Theorem formatTimestamp_width :
  forall seconds : Q,
    0 <= seconds ->
    seconds < 360000 ->
    String.length (formatTimestamp seconds)
    = if Qle_bool 3600 seconds then 8%nat else 5%nat.
Proof.
  intros seconds Hnonneg Hbelow.
  rewrite (formatTimestamp_of_floor seconds Hnonneg). cbv zeta.
  set (z := Qfloor seconds).
  assert (Hz0 : (0 <= z)%Z).
  { subst z. apply Qfloor_resp_le in Hnonneg. exact Hnonneg. }
  assert (Hz1 : (z < 360000)%Z).
  { subst z. pose proof (Qfloor_le seconds) as Hfl.
    assert (H : inject_Z (Qfloor seconds) < inject_Z 360000)
      by (apply (Qle_lt_trans _ seconds); [exact Hfl | exact Hbelow]).
    now rewrite <- Zlt_Qlt in H. }
  assert (Hm : (0 <= z mod 3600 / 60 < 100)%Z).
  { pose proof (Z.mod_pos_bound z 3600 ltac:(lia)).
    split; [apply Z.div_pos; lia|].
    apply Z.div_lt_upper_bound; lia. }
  assert (Hs : (0 <= z mod 60 < 100)%Z)
    by (pose proof (Z.mod_pos_bound z 60 ltac:(lia)); lia).
  destruct (Qle_bool 3600 seconds) eqn:Ehour.
  - apply Qle_bool_iff in Ehour.
    assert (Hz2 : (3600 <= z)%Z).
    { subst z. apply Qfloor_resp_le in Ehour. exact Ehour. }
    assert (Hh : (0 < z / 3600 < 100)%Z).
    { split; [apply Z.div_str_pos; lia|].
      apply Z.div_lt_upper_bound; lia. }
    replace (0 <? z / 3600)%Z with true by (symmetry; apply Z.ltb_lt; lia).
    rewrite !length_append, !two_digits_length_Z by lia. reflexivity.
  - apply Qle_bool_false in Ehour.
    assert (Hz2 : (z < 3600)%Z).
    { subst z. pose proof (Qfloor_le seconds) as Hfl.
      assert (H : inject_Z (Qfloor seconds) < inject_Z 3600)
      by (apply (Qle_lt_trans _ seconds); [exact Hfl | exact Ehour]).
      now rewrite <- Zlt_Qlt in H. }
    rewrite (Z.div_small z 3600) by lia. cbn [Z.ltb Z.compare].
    rewrite !length_append, !two_digits_length_Z by lia. reflexivity.
Qed.

Lemma formatTimestamp_width_witness :
  0 <= 7384 + (9 # 10)
  /\ 7384 + (9 # 10) < 360000
  /\ String.length (formatTimestamp (7384 + (9 # 10))) = 8%nat.
Proof.
  assert (Hnonneg : 0 <= 7384 + (9 # 10)) by (intro E; discriminate E).
  assert (Hbelow : 7384 + (9 # 10) < 360000) by reflexivity.
  split; [exact Hnonneg|]. split; [exact Hbelow|].
  exact (formatTimestamp_width _ Hnonneg Hbelow).
Defined.

End TimestampProperties.

(** ** Properties of the time-based fallback *)

Section FallbackProperties.
Local Open Scope string_scope.

Lemma insertSorted_permutation (file : string) (sorted : list string) :
  Permutation (insertSorted file sorted) (file :: sorted).
Proof.
  induction sorted as [|other rest IH]; cbn; [reflexivity|].
  destruct (String.leb file other); [reflexivity|].
  rewrite IH. apply perm_swap.
Qed.

Lemma sortFiles_permutation (files : list string) :
  Permutation (sortFiles files) files.
Proof.
  induction files as [|file rest IH]; cbn; [reflexivity|].
  rewrite insertSorted_permutation. now constructor.
Qed.

Lemma timeChunks_paths (outputDir : string) (chunkDuration : Q) files :
  forall index,
    map path (timeChunks outputDir chunkDuration index files)
    = map (pathJoin outputDir) files.
Proof.
  induction files as [|file rest IH]; intro index; [reflexivity|].
  cbn. now rewrite IH.
Qed.

(** X15: The fallback labels exactly the files of the output directory whose name
    starts with [<baseName>_chunk_] and ends with [.mp3], each once: no other
    file of the directory becomes a chunk, and none of those is left out,
    whether or not this run wrote it. *)
Theorem splitByTime_takes_exactly_the_chunk_files :
  forall (outputDir baseName : string) (chunkDuration : Q)
         (listing : list string),
  exists result,
    splitByTime outputDir baseName chunkDuration (SegmenterDone listing)
    = Resolves result
    /\ Permutation (map path result)
         (map (pathJoin outputDir) (filter (isChunkFile baseName) listing)).
Proof.
  intros outputDir baseName chunkDuration listing. eexists. split.
  - reflexivity.
  - rewrite timeChunks_paths. apply Permutation_map.
    apply sortFiles_permutation.
Qed.

Lemma ascii_compare_refl (c : ascii) : Ascii.compare c c = Eq.
Proof. unfold Ascii.compare. apply N.compare_refl. Qed.

Lemma ascii_compare_lt_trans (a b c : ascii) :
  Ascii.compare a b = Lt -> Ascii.compare b c = Lt -> Ascii.compare a c = Lt.
Proof.
  unfold Ascii.compare. rewrite !N.compare_lt_iff. apply N.lt_trans.
Qed.

Lemma string_compare_not_gt_trans (x : string) :
  forall y z,
    String.compare x y <> Gt -> String.compare y z <> Gt ->
    String.compare x z <> Gt.
Proof.
  induction x as [|a x IH]; intros [|b y] [|c z] Hxy Hyz; cbn in *;
    try discriminate; try congruence.
  destruct (Ascii.compare a b) eqn:Eab; try congruence;
    destruct (Ascii.compare b c) eqn:Ebc; try congruence.
  - apply Ascii.compare_eq_iff in Eab, Ebc. subst.
    rewrite ascii_compare_refl. exact (IH y z Hxy Hyz).
  - apply Ascii.compare_eq_iff in Eab. subst. now rewrite Ebc.
  - apply Ascii.compare_eq_iff in Ebc. subst. now rewrite Eab.
  - now rewrite (ascii_compare_lt_trans a b c Eab Ebc).
Qed.

Lemma leb_not_gt (x y : string) : nameLe x y <-> String.compare x y <> Gt.
Proof.
  unfold nameLe, String.leb.
  destruct (String.compare x y); split; congruence.
Qed.

Lemma nameLe_trans : Relations_1.Transitive nameLe.
Proof.
  intros x y z Hxy Hyz. apply leb_not_gt in Hxy, Hyz. apply leb_not_gt.
  exact (string_compare_not_gt_trans x y z Hxy Hyz).
Qed.

Lemma nameLe_append_l (a x y : string) :
  nameLe x y -> nameLe (a ++ x) (a ++ y).
Proof.
  intro H. apply leb_not_gt in H. apply leb_not_gt.
  induction a as [|c a IH]; cbn; [exact H|].
  now rewrite ascii_compare_refl.
Qed.

Lemma insertSorted_sorted (file : string) (sorted : list string) :
  StronglySorted nameLe sorted ->
  StronglySorted nameLe (insertSorted file sorted).
Proof.
  induction sorted as [|other rest IH]; intro Hs; cbn.
  - repeat constructor.
  - apply StronglySorted_inv in Hs. destruct Hs as [Hrest Hall].
    destruct (String.leb file other) eqn:E.
    + constructor; [constructor; assumption|].
      constructor; [exact E|].
      eapply Forall_impl; [|exact Hall].
      intros x Hx. exact (nameLe_trans _ _ _ E Hx).
    + constructor; [exact (IH Hrest)|].
      apply (Permutation_Forall (Permutation_sym (insertSorted_permutation file rest))).
      constructor; [|exact Hall].
      destruct (String.leb_total file other) as [H|H]; [congruence | exact H].
Qed.

Lemma sortFiles_sorted (files : list string) :
  StronglySorted nameLe (sortFiles files).
Proof.
  induction files as [|file rest IH]; cbn; [constructor|].
  apply insertSorted_sorted. exact IH.
Qed.

Lemma sorted_permutation_unique (l1 : list string) :
  forall l2,
    StronglySorted nameLe l1 -> StronglySorted nameLe l2 ->
    Permutation l1 l2 -> l1 = l2.
Proof.
  induction l1 as [|a l1 IH]; intros l2 H1 H2 Hperm.
  - apply Permutation_nil in Hperm. now subst.
  - destruct l2 as [|b l2];
      [apply Permutation_sym, Permutation_nil in Hperm; discriminate|].
    apply StronglySorted_inv in H1, H2.
    destruct H1 as [H1 Ha], H2 as [H2 Hb].
    assert (Hab : a = b).
    { assert (Hin_a : In a (b :: l2))
        by (apply (Permutation_in _ Hperm); now left).
      assert (Hin_b : In b (a :: l1))
        by (apply (Permutation_in _ (Permutation_sym Hperm)); now left).
      destruct Hin_a as [->|Hin_a]; [reflexivity|].
      destruct Hin_b as [->|Hin_b]; [reflexivity|].
      rewrite Forall_forall in Ha, Hb.
      apply String.leb_antisym; [exact (Ha b Hin_b) | exact (Hb a Hin_a)]. }
    subst b. f_equal. apply (IH l2 H1 H2).
    exact (Permutation_cons_inv Hperm).
Qed.

Lemma numbered_names_ascend_below_1000 :
  forallb (fun i => String.leb
                      (padStart 3 "0" (natToString i) ++ ".mp3")
                      (padStart 3 "0" (natToString (S i)) ++ ".mp3"))
          (seq 0 999)
  = true.
Proof. vm_compute. reflexivity. Qed.

Lemma chunkFileName_next (baseName : string) (i : nat) :
  (i < 999)%nat ->
  nameLe (chunkFileName baseName i) (chunkFileName baseName (S i)).
Proof.
  intro Hi. unfold chunkFileName.
  apply nameLe_append_l. apply (nameLe_append_l "_chunk_").
  pose proof numbered_names_ascend_below_1000 as Hall.
  rewrite forallb_forall in Hall. apply Hall. apply in_seq. lia.
Qed.

Lemma chunkFileNames_sorted (baseName : string) (count : nat) :
  forall first,
    (first + count <= 1000)%nat ->
    StronglySorted nameLe (map (chunkFileName baseName) (seq first count)).
Proof.
  intros first Hbound. apply (Sorted_StronglySorted nameLe_trans).
  revert first Hbound. induction count as [|count IH]; intros first Hbound;
    [constructor|].
  cbn [seq map]. constructor; [apply IH; lia|].
  destruct count as [|count]; [constructor|].
  cbn [seq map]. constructor. apply chunkFileName_next. lia.
Qed.

Lemma timeChunks_nth (outputDir : string) (chunkDuration : Q) files :
  forall first i file,
    nth_error files i = Some file ->
    nth_error (timeChunks outputDir chunkDuration first files) i
    = Some (mkChunk (pathJoin outputDir file)
                    (inject_Z (Z.of_nat (first + i)) * chunkDuration)%Q
                    (Some (inject_Z (Z.of_nat (first + i)) * chunkDuration
                           + chunkDuration)%Q)).
Proof.
  induction files as [|f rest IH]; intros first i file Hi.
  - destruct i; discriminate Hi.
  - destruct i as [|i].
    + injection Hi as ->. rewrite Nat.add_0_r. reflexivity.
    + cbn [nth_error] in Hi. cbn [timeChunks nth_error].
      rewrite (IH (S first) i file Hi).
      replace (S first + i)%nat with (first + S i)%nat by lia. reflexivity.
Qed.

(** X16: Sorting the file names restores the chronological order: when the chunk
    files of the directory are the files numbered [000] to [count - 1], for at
    most 1000 of them, chunk [i] is file [i], labelled from
    [i * chunkDuration], in whatever order the directory was listed. *)
Theorem splitByTime_chunks_follow_the_file_numbers :
  forall (outputDir baseName : string) (chunkDuration : Q)
         (listing : list string) (count : nat),
    (count <= 1000)%nat ->
    Permutation (filter (isChunkFile baseName) listing)
                (map (chunkFileName baseName) (seq 0 count)) ->
    exists result,
      splitByTime outputDir baseName chunkDuration (SegmenterDone listing)
      = Resolves result
      /\ List.length result = count
      /\ forall i,
          (i < count)%nat ->
          nth_error result i
          = Some (mkChunk (pathJoin outputDir (chunkFileName baseName i))
                          (inject_Z (Z.of_nat i) * chunkDuration)%Q
                          (Some (inject_Z (Z.of_nat i) * chunkDuration
                                 + chunkDuration)%Q)).
Proof.
  intros outputDir baseName chunkDuration listing count Hcount Hperm.
  eexists. split; [reflexivity|].
  fold (isChunkFile baseName).
  assert (Hsorted : sortFiles (filter (isChunkFile baseName) listing)
                    = map (chunkFileName baseName) (seq 0 count)).
  { apply sorted_permutation_unique.
    - apply sortFiles_sorted.
    - apply chunkFileNames_sorted. lia.
    - rewrite sortFiles_permutation. exact Hperm. }
  change (fun file : string =>
            prefix (baseName ++ "_chunk_") file && endsWith ".mp3" file)
    with (isChunkFile baseName).
  rewrite Hsorted. split.
  - assert (L : forall files first,
               List.length (timeChunks outputDir chunkDuration first files)
               = List.length files).
    { induction files as [|f rest IH]; intro first; cbn;
        [reflexivity | now rewrite IH]. }
    rewrite L, length_map, length_seq. reflexivity.
  - intros i Hi.
    rewrite (timeChunks_nth outputDir chunkDuration _ 0 i
               (chunkFileName baseName i)); [reflexivity|].
    rewrite nth_error_map, nth_error_seq.
    apply Nat.ltb_lt in Hi. rewrite Hi. reflexivity.
Qed.

Lemma splitByTime_chunks_follow_the_file_numbers_witness :
  let listing := ["talk_chunk_001.mp3"; "notes.txt"; "talk_chunk_000.mp3"] in
  (2 <= 1000)%nat
  /\ Permutation (filter (isChunkFile "talk") listing)
                 (map (chunkFileName "talk") (seq 0 2))
  /\ exists result,
      splitByTime "chunks" "talk" 30 (SegmenterDone listing) = Resolves result
      /\ List.length result = 2%nat
      /\ forall i,
          (i < 2)%nat ->
          nth_error result i
          = Some (mkChunk (pathJoin "chunks" (chunkFileName "talk" i))
                          (inject_Z (Z.of_nat i) * 30)%Q
                          (Some (inject_Z (Z.of_nat i) * 30 + 30)%Q)).
Proof.
  intro listing.
  assert (Hcount : (2 <= 1000)%nat) by lia.
  assert (Hperm : Permutation (filter (isChunkFile "talk") listing)
                              (map (chunkFileName "talk") (seq 0 2)))
    by apply perm_swap.
  split; [exact Hcount|]. split; [exact Hperm|].
  exact (splitByTime_chunks_follow_the_file_numbers
           "chunks" "talk" 30 listing 2 Hcount Hperm).
Defined.

End FallbackProperties.

(** ** Properties of [convertToMP3] and [transcribeAudioFile] *)

Section ConversionProperties.
Local Open Scope string_scope.

Lemma list_ascii_of_append (x y : string) :
  list_ascii_of_string (x ++ y)
  = (list_ascii_of_string x ++ list_ascii_of_string y)%list.
Proof. induction x as [|c x IH]; cbn; [reflexivity | now rewrite IH]. Qed.

Lemma splitExtension_stops_at_dot (extension stem : list ascii) :
  Forall (fun c => c <> "/"%char /\ c <> "."%char) extension ->
  splitExtension (extension ++ "."%char :: stem)%list
  = (extension, "."%char :: stem).
Proof.
  induction 1 as [|c extension [Hslash Hdot] _ IH]; [reflexivity|].
  cbn [app splitExtension].
  apply Ascii.eqb_neq in Hslash, Hdot. rewrite Hslash, Hdot. cbn [orb].
  now rewrite IH.
Qed.

Lemma splitExtension_without_dot (reversed : list ascii) :
  ~ In "."%char reversed ->
  match splitExtension reversed with
  | (_, []) => True
  | (_, c :: _) => c = "/"%char
  end.
Proof.
  induction reversed as [|c rest IH]; intro Hnodot; [exact I|].
  cbn [splitExtension].
  destruct (Ascii.eqb c "/") eqn:Eslash.
  - cbn [orb]. now apply Ascii.eqb_eq in Eslash.
  - destruct (Ascii.eqb c ".") eqn:Edot.
    + apply Ascii.eqb_eq in Edot. subst c. exfalso. apply Hnodot. now left.
    + cbn [orb]. assert (Hrest : ~ In "."%char rest)
        by (intro Hin; apply Hnodot; now right).
      specialize (IH Hrest). destruct (splitExtension rest) as [e b].
      exact IH.
Qed.

Lemma replaceExtension_of_extension (stem extension : string) :
  extension <> "" ->
  Forall (fun c => c <> "/"%char /\ c <> "."%char)
         (list_ascii_of_string extension) ->
  replaceExtension (stem ++ "." ++ extension) = stem ++ ".mp3".
Proof.
  intros Hne Hplain. unfold replaceExtension.
  rewrite list_ascii_of_append. cbn [append list_ascii_of_string].
  rewrite rev_app_distr. cbn [rev]. rewrite <- app_assoc. cbn [app].
  rewrite splitExtension_stops_at_dot
    by (apply Forall_rev; exact Hplain).
  destruct (rev (list_ascii_of_string extension)) as [|c l] eqn:E.
  - exfalso. apply Hne. apply (f_equal (@rev ascii)) in E.
    rewrite rev_involutive in E. cbn in E.
    apply (f_equal string_of_list_ascii) in E.
    now rewrite string_of_list_ascii_of_string in E.
  - cbn [Ascii.eqb Bool.eqb]. rewrite rev_involutive.
    now rewrite string_of_list_ascii_of_string.
Qed.

Lemma replaceExtension_without_dot (inputPath : string) :
  ~ In "."%char (list_ascii_of_string inputPath) ->
  replaceExtension inputPath = inputPath.
Proof.
  intro Hnodot. unfold replaceExtension.
  assert (Hrev : ~ In "."%char (rev (list_ascii_of_string inputPath)))
    by (intro Hin; apply Hnodot; now apply in_rev).
  pose proof (splitExtension_without_dot _ Hrev) as Hsplit.
  destruct (splitExtension (rev (list_ascii_of_string inputPath)))
    as [[|e extension] [|c before]]; try reflexivity.
  subst c. reflexivity.
Qed.

(** X17: A file that is not an mp3 is converted into a copy beside it whose name
    is the input's with [.mp3] in place of the extension, that is, of
    whatever follows the last dot when that is non-empty and holds no [/];
    when the conversion succeeds, that copy is the path returned. *)
Theorem convertToMP3_writes_beside_the_input :
  forall (extname toLowerCase : string -> string) (world : AudioFileWorld)
         (stem extension : string),
    extension <> "" ->
    Forall (fun c => c <> "/"%char /\ c <> "."%char)
           (list_ascii_of_string extension) ->
    toLowerCase (extname (stem ++ "." ++ extension)) <> ".mp3" ->
    conversion world = None ->
    convertToMP3 extname toLowerCase world (stem ++ "." ++ extension)
    = ([Convert (stem ++ "." ++ extension) (stem ++ ".mp3")],
       inr (stem ++ ".mp3")).
Proof.
  intros extname toLowerCase world stem extension Hne Hplain Hother Hconv.
  unfold convertToMP3.
  rewrite (replaceExtension_of_extension stem extension Hne Hplain).
  apply String.eqb_neq in Hother. rewrite Hother, Hconv. reflexivity.
Qed.

Lemma convertToMP3_writes_beside_the_input_witness :
  let world := mkAudioFileWorld true 1000 None None None (PostOk "hello")
                                true None in
  "wav" <> ""
  /\ Forall (fun c => c <> "/"%char /\ c <> "."%char)
            (list_ascii_of_string "wav")
  /\ (fun s : string => s)
       ((fun _ : string => ".wav") ("talks/first.take" ++ "." ++ "wav"))
     <> ".mp3"
  /\ conversion world = None
  /\ convertToMP3 (fun _ => ".wav") (fun s => s) world
                  ("talks/first.take" ++ "." ++ "wav")
     = ([Convert ("talks/first.take" ++ "." ++ "wav")
                 ("talks/first.take" ++ ".mp3")],
        inr ("talks/first.take" ++ ".mp3")).
Proof.
  intro world.
  assert (Hne : "wav" <> "") by discriminate.
  assert (Hplain : Forall (fun c => c <> "/"%char /\ c <> "."%char)
                          (list_ascii_of_string "wav")).
  { cbn. repeat constructor; discriminate. }
  assert (Hother : (fun s : string => s)
                     ((fun _ : string => ".wav")
                        ("talks/first.take" ++ "." ++ "wav"))
                   <> ".mp3") by discriminate.
  assert (Hconv : conversion world = None) by reflexivity.
  split; [exact Hne|]. split; [exact Hplain|]. split; [exact Hother|].
  split; [exact Hconv|].
  exact (convertToMP3_writes_beside_the_input
           (fun _ => ".wav") (fun s => s) world "talks/first.take" "wav"
           Hne Hplain Hother Hconv).
Defined.

(** X18: A path without any dot has no extension to replace: unless it counts as
    an mp3, the conversion is run with the input itself as its output
    file. *)
Theorem convertToMP3_targets_the_input_when_there_is_no_dot :
  forall (extname toLowerCase : string -> string) (world : AudioFileWorld)
         (inputPath : string),
    ~ In "."%char (list_ascii_of_string inputPath) ->
    toLowerCase (extname inputPath) <> ".mp3" ->
    fst (convertToMP3 extname toLowerCase world inputPath)
    = [Convert inputPath inputPath].
Proof.
  intros extname toLowerCase world inputPath Hnodot Hother.
  unfold convertToMP3. rewrite (replaceExtension_without_dot _ Hnodot).
  apply String.eqb_neq in Hother. rewrite Hother.
  destruct (conversion world); reflexivity.
Qed.

Lemma convertToMP3_targets_the_input_when_there_is_no_dot_witness :
  let world := mkAudioFileWorld true 1000 None None None (PostOk "hello")
                                true None in
  ~ In "."%char (list_ascii_of_string "talks/recording")
  /\ (fun s : string => s) ((fun _ : string => "") "talks/recording") <> ".mp3"
  /\ fst (convertToMP3 (fun _ => "") (fun s => s) world "talks/recording")
     = [Convert "talks/recording" "talks/recording"].
Proof.
  intro world.
  assert (Hnodot : ~ In "."%char (list_ascii_of_string "talks/recording")).
  { cbn. intuition discriminate. }
  assert (Hother : (fun s : string => s)
                     ((fun _ : string => "") "talks/recording") <> ".mp3")
    by discriminate.
  split; [exact Hnodot|]. split; [exact Hother|].
  exact (convertToMP3_targets_the_input_when_there_is_no_dot
           (fun _ => "") (fun s => s) world "talks/recording" Hnodot Hother).
Defined.

End ConversionProperties.

Section TranscribeAudioFileProperties.
Local Open Scope string_scope.
Variable extname : string -> string.
Variable toLowerCase : string -> string.
Variable toFixed2 : Q -> string.

Let run := transcribeAudioFile extname toLowerCase toFixed2.

Ltac run_cases world absPath :=
  subst run; unfold transcribeAudioFile, convertToMP3, transcriptionError;
  destruct (negb (fileExists world));
  [| destruct (25 * 1024 * 1024 <? fileSize world)%N;
     [| destruct (probeOriginal world);
        [| destruct (String.eqb (toLowerCase (extname absPath)) ".mp3") eqn:Emp3;
           [| destruct (conversion world)];
           try (destruct (probeCompatible world);
                [| destruct (reply world);
                   try (destruct (negb (String.eqb _ absPath)
                                  && compatibleExists world) eqn:Eclean;
                        [destruct (unlinkProblem world)|])])]]].

(** The error that leaves [transcribeAudioFile] carries a message starting
    with "Transcription error: ", unless the [catch] itself failed on a
    response without [data.error]: its TypeError leaves as it is. *)
Lemma failure_message_shape (world : AudioFileWorld) (absPath message : string) :
  snd (run world absPath) = TranscribeFailed message ->
  (exists detail, message = "Transcription error: " ++ detail)
  \/ (reply world = PostRefusedWithoutError message
      /\ exists sent, In (Post sent) (fst (run world absPath))).
Proof.
  run_cases world absPath; cbn [snd fst]; intro E;
    try discriminate E; injection E as <-;
    first [ left; eexists; reflexivity
          | right; split; [reflexivity|];
            eexists; cbn; rewrite ?in_app_iff; cbn; tauto ].
Qed.

Lemma in_app_unlink (file : string) (before after : list FileEffect) :
  In (Unlink file) (before ++ after)%list ->
  In (Unlink file) before \/ In (Unlink file) after.
Proof. apply in_app_or. Qed.

(** The only file [transcribeAudioFile] ever removes is the converted copy:
    a removed file is the conversion target, differs from the input, was
    written by a conversion of this call and was sent to the service, whose
    reply was a success. *)
Lemma removal_is_of_the_converted_copy
      (world : AudioFileWorld) (absPath file : string) :
  In (Unlink file) (fst (run world absPath)) ->
  file = replaceExtension absPath
  /\ file <> absPath
  /\ In (Convert absPath file) (fst (run world absPath))
  /\ In (Post file) (fst (run world absPath))
  /\ exists text, reply world = PostOk text.
Proof.
  run_cases world absPath; cbn [fst app In]; intro Hin;
    repeat match goal with
           | H : _ \/ _ |- _ => destruct H
           | H : False |- _ => destruct H
           | H : Unlink _ = Unlink _ |- _ => injection H as <-
           | H : _ = Unlink _ |- _ => discriminate H
           end.
  all: apply andb_true_iff in Eclean; destruct Eclean as [Eneq _];
    apply negb_true_iff in Eneq; apply String.eqb_neq in Eneq.
  all: try (exfalso; apply Eneq; reflexivity).
  all: repeat split; try exact Eneq; try (now eexists); cbn; tauto.
Qed.

Lemma transcription_needs_every_step
      (world : AudioFileWorld) (absPath text : string) :
  snd (run world absPath) = Transcribed text ->
  fileExists world = true
  /\ (fileSize world <= 25 * 1024 * 1024)%N
  /\ probeOriginal world = None
  /\ probeCompatible world = None
  /\ reply world = PostOk text
  /\ exists sent, In (Post sent) (fst (run world absPath)).
Proof.
  subst run. unfold transcribeAudioFile, convertToMP3, transcriptionError.
  destruct (fileExists world); cbn [negb]; [|discriminate].
  destruct (25 * 1024 * 1024 <? fileSize world)%N eqn:Esize; [discriminate|].
  apply N.ltb_ge in Esize.
  destruct (probeOriginal world); [discriminate|].
  destruct (String.eqb (toLowerCase (extname absPath)) ".mp3");
    [|destruct (conversion world); [discriminate|]];
    (destruct (probeCompatible world); [discriminate|]);
    (destruct (reply world) as [t|m|m|m]; try discriminate);
    (destruct (negb (String.eqb _ absPath) && compatibleExists world);
     [destruct (unlinkProblem world); [discriminate|]|]);
    cbn [snd fst]; intro E; injection E as ->;
    repeat split; try exact Esize; eexists; cbn; rewrite ?in_app_iff; cbn;
    tauto.
Qed.

Lemma mp3_effects (world : AudioFileWorld) (absPath : string) :
  toLowerCase (extname absPath) = ".mp3" ->
  Forall (fun effect => effect = Probe absPath \/ effect = Post absPath)
         (fst (run world absPath)).
Proof.
  intro Hmp3. subst run. unfold transcribeAudioFile, convertToMP3.
  rewrite Hmp3. cbn [String.eqb Ascii.eqb Bool.eqb andb].
  rewrite String.eqb_refl. cbn [negb andb].
  destruct (negb (fileExists world)); [constructor|].
  destruct (25 * 1024 * 1024 <? fileSize world)%N; [constructor|].
  destruct (probeOriginal world); [repeat constructor; tauto|].
  destruct (probeCompatible world); [repeat constructor; tauto|].
  destruct (reply world); repeat constructor; tauto.
Qed.

End TranscribeAudioFileProperties.

Section TranscribeAudioFileTheorems.
Local Open Scope string_scope.

(** X19: an error that leaves [transcribeAudioFile] (for a missing or
    oversized file, a failed probe or conversion, a refused or failed
    request, a failed removal) carries a message that starts with
    "Transcription error: ", with one exception: when the request failed with
    a response that holds no [data.error], the [catch] itself throws a
    TypeError while it builds the message, and that TypeError leaves as it
    is, after the request was made. *)
Theorem transcribeAudioFile_failure_is_prefixed_or_a_TypeError :
  forall (extname toLowerCase : string -> string) (toFixed2 : Q -> string)
         (world : AudioFileWorld) (absPath message : string),
    snd (transcribeAudioFile extname toLowerCase toFixed2 world absPath)
    = TranscribeFailed message ->
    (exists detail, message = "Transcription error: " ++ detail)
    \/ (reply world = PostRefusedWithoutError message
        /\ exists sent,
            In (Post sent)
               (fst (transcribeAudioFile extname toLowerCase toFixed2
                                         world absPath))).
Proof.
  intros extname toLowerCase toFixed2 world absPath message.
  apply failure_message_shape.
Qed.

(** X20: A file above 25 MiB is rejected before anything is run on it: no probe,
    no conversion, no request.  The limit is tested on the input file. *)
Theorem transcribeAudioFile_rejects_an_oversized_file_untouched :
  forall (extname toLowerCase : string -> string) (toFixed2 : Q -> string)
         (world : AudioFileWorld) (absPath : string),
    fileExists world = true ->
    (25 * 1024 * 1024 < fileSize world)%N ->
    transcribeAudioFile extname toLowerCase toFixed2 world absPath
    = ([],
       TranscribeFailed
         ("Transcription error: File too large: "
          ++ toFixed2 (inject_Z (Z.of_N (fileSize world)) / 1024 / 1024)%Q
          ++ " MB (max 25MB)")).
Proof.
  intros extname toLowerCase toFixed2 world absPath Hexists Hsize.
  unfold transcribeAudioFile, transcriptionError. rewrite Hexists.
  apply N.ltb_lt in Hsize. rewrite Hsize. reflexivity.
Qed.

(** X21: The only file [transcribeAudioFile] ever removes is the converted copy
    it made: a removed file is the conversion target, differs from the input,
    was written by a conversion of this call, was sent to the service, and
    the service answered with a transcription.  The input file is never
    removed, and after a failed request the copy is left behind. *)
Theorem transcribeAudioFile_removes_only_its_converted_copy :
  forall (extname toLowerCase : string -> string) (toFixed2 : Q -> string)
         (world : AudioFileWorld) (absPath file : string),
    In (Unlink file)
       (fst (transcribeAudioFile extname toLowerCase toFixed2 world absPath)) ->
    file = replaceExtension absPath
    /\ file <> absPath
    /\ In (Convert absPath file)
          (fst (transcribeAudioFile extname toLowerCase toFixed2 world absPath))
    /\ In (Post file)
          (fst (transcribeAudioFile extname toLowerCase toFixed2 world absPath))
    /\ exists text, reply world = PostOk text.
Proof.
  intros extname toLowerCase toFixed2 world absPath file.
  apply removal_is_of_the_converted_copy.
Qed.

(** X22: A transcription is returned only when every step went through: the file
    exists and is at most 25 MiB, both probes succeeded, the request was made
    and the text returned is the one the service sent. *)
Theorem transcribeAudioFile_returns_only_what_the_service_sent :
  forall (extname toLowerCase : string -> string) (toFixed2 : Q -> string)
         (world : AudioFileWorld) (absPath text : string),
    snd (transcribeAudioFile extname toLowerCase toFixed2 world absPath)
    = Transcribed text ->
    fileExists world = true
    /\ (fileSize world <= 25 * 1024 * 1024)%N
    /\ probeOriginal world = None
    /\ probeCompatible world = None
    /\ reply world = PostOk text
    /\ exists sent,
        In (Post sent)
           (fst (transcribeAudioFile extname toLowerCase toFixed2 world absPath)).
Proof.
  intros extname toLowerCase toFixed2 world absPath text.
  apply transcription_needs_every_step.
Qed.

(** X23: An input whose extension is [.mp3] in any letter case is used as it is:
    the call only probes it and sends it; it converts nothing and removes
    nothing. *)
Theorem transcribeAudioFile_sends_an_mp3_as_it_is :
  forall (extname toLowerCase : string -> string) (toFixed2 : Q -> string)
         (world : AudioFileWorld) (absPath : string),
    toLowerCase (extname absPath) = ".mp3" ->
    Forall (fun effect => effect = Probe absPath \/ effect = Post absPath)
           (fst (transcribeAudioFile extname toLowerCase toFixed2 world absPath)).
Proof.
  intros extname toLowerCase toFixed2 world absPath.
  apply mp3_effects.
Qed.

Lemma transcribeAudioFile_failure_is_prefixed_or_a_TypeError_witness :
  let typeError := "Cannot read properties of undefined (reading 'message')" in
  let world := mkAudioFileWorld true 1000 None None None
                                (PostRefusedWithoutError typeError) true None in
  let run := transcribeAudioFile (fun _ => ".mp3") (fun s => s)
                                 (fun _ => "0.00") world "talks/a.mp3" in
  snd run = TranscribeFailed typeError
  /\ ((exists detail, typeError = "Transcription error: " ++ detail)
      \/ (reply world = PostRefusedWithoutError typeError
          /\ exists sent, In (Post sent) (fst run))).
Proof.
  intros typeError world run.
  assert (Hfail : snd run = TranscribeFailed typeError) by reflexivity.
  split; [exact Hfail|].
  exact (transcribeAudioFile_failure_is_prefixed_or_a_TypeError
           (fun _ => ".mp3") (fun s => s) (fun _ => "0.00")
           world "talks/a.mp3" typeError Hfail).
Defined.

Lemma transcribeAudioFile_rejects_an_oversized_file_untouched_witness :
  let world := mkAudioFileWorld true 30000000 None None None (PostOk "hello")
                                true None in
  fileExists world = true
  /\ (25 * 1024 * 1024 < fileSize world)%N
  /\ transcribeAudioFile (fun _ => ".wav") (fun s => s) (fun _ => "28.61")
                         world "talks/a.wav"
     = ([], TranscribeFailed
              "Transcription error: File too large: 28.61 MB (max 25MB)").
Proof.
  intro world.
  assert (Hexists : fileExists world = true) by reflexivity.
  assert (Hsize : (25 * 1024 * 1024 < fileSize world)%N) by reflexivity.
  split; [exact Hexists|]. split; [exact Hsize|].
  exact (transcribeAudioFile_rejects_an_oversized_file_untouched
           (fun _ => ".wav") (fun s => s) (fun _ => "28.61")
           world "talks/a.wav" Hexists Hsize).
Defined.

Lemma transcribeAudioFile_removes_only_its_converted_copy_witness :
  let world := mkAudioFileWorld true 1000 None None None (PostOk "hello")
                                true None in
  let run := transcribeAudioFile (fun _ => ".wav") (fun s => s)
                                 (fun _ => "0.00") world "talks/a.wav" in
  In (Unlink "talks/a.mp3") (fst run)
  /\ "talks/a.mp3" = replaceExtension "talks/a.wav"
  /\ "talks/a.mp3" <> "talks/a.wav"
  /\ In (Convert "talks/a.wav" "talks/a.mp3") (fst run)
  /\ In (Post "talks/a.mp3") (fst run)
  /\ exists text, reply world = PostOk text.
Proof.
  intros world run.
  assert (Hin : In (Unlink "talks/a.mp3") (fst run)) by (cbn; tauto).
  split; [exact Hin|].
  exact (transcribeAudioFile_removes_only_its_converted_copy
           (fun _ => ".wav") (fun s => s) (fun _ => "0.00")
           world "talks/a.wav" "talks/a.mp3" Hin).
Defined.

Lemma transcribeAudioFile_returns_only_what_the_service_sent_witness :
  let world := mkAudioFileWorld true 1000 None None None (PostOk "hello")
                                true None in
  let run := transcribeAudioFile (fun _ => ".wav") (fun s => s)
                                 (fun _ => "0.00") world "talks/a.wav" in
  snd run = Transcribed "hello"
  /\ fileExists world = true
  /\ (fileSize world <= 25 * 1024 * 1024)%N
  /\ probeOriginal world = None
  /\ probeCompatible world = None
  /\ reply world = PostOk "hello"
  /\ exists sent, In (Post sent) (fst run).
Proof.
  intros world run.
  assert (Hok : snd run = Transcribed "hello") by reflexivity.
  split; [exact Hok|].
  exact (transcribeAudioFile_returns_only_what_the_service_sent
           (fun _ => ".wav") (fun s => s) (fun _ => "0.00")
           world "talks/a.wav" "hello" Hok).
Defined.

Lemma transcribeAudioFile_sends_an_mp3_as_it_is_witness :
  let world := mkAudioFileWorld true 1000 None None None (PostOk "hello")
                                true None in
  (fun _ : string => ".mp3") ((fun _ : string => ".MP3") "talks/a.MP3") = ".mp3"
  /\ Forall (fun effect => effect = Probe "talks/a.MP3"
                           \/ effect = Post "talks/a.MP3")
            (fst (transcribeAudioFile (fun _ => ".MP3") (fun _ => ".mp3")
                                      (fun _ => "0.00") world "talks/a.MP3")).
Proof.
  intro world.
  assert (Hmp3 : (fun _ : string => ".mp3")
                   ((fun _ : string => ".MP3") "talks/a.MP3") = ".mp3")
    by reflexivity.
  split; [exact Hmp3|].
  exact (transcribeAudioFile_sends_an_mp3_as_it_is
           (fun _ => ".MP3") (fun _ => ".mp3") (fun _ => "0.00")
           world "talks/a.MP3" Hmp3).
Defined.

End TranscribeAudioFileTheorems.

(** ** Further properties of the transcription loop *)

Section LoopProperties.
Local Open Scope string_scope.
Local Open Scope nat_scope.

(** X24: The loop is sequential: the entry of a chunk is handed to the output
    file right after its own remote call and before the remote call of the
    next chunk is made. *)
Theorem entry_is_appended_before_the_next_call :
  forall (transcribeAudioFile : nat -> string -> TranscribeResult)
         (chunks : list Chunk) (k : nat) (chunk next : Chunk),
    nth_error chunks k = Some chunk ->
    nth_error chunks (S k) = Some next ->
    let trace := transcribeLoop transcribeAudioFile 0 chunks in
    nth_error trace (2 * k) = Some (CallTranscribe (path chunk))
    /\ nth_error trace (2 * k + 1)
       = Some (AppendToFile
                 (chunkText transcribeAudioFile k chunk ++ newline ++ newline))
    /\ nth_error trace (2 * k + 2) = Some (CallTranscribe (path next)).
Proof.
  intros oracle chunks k chunk next Hk Hnext trace. subst trace.
  destruct (transcribeLoop_positions oracle chunks 0 k chunk Hk) as [Hcall Happ].
  destruct (transcribeLoop_positions oracle chunks 0 (S k) next Hnext)
    as [Hcall' _].
  replace (2 * S k) with (2 * k + 2) in Hcall' by lia.
  repeat split; assumption.
Qed.

Lemma entry_is_appended_before_the_next_call_witness :
  let chunks :=
    [mkChunk "chunks/talk_chunk_000.mp3" 0 (Some 65%Q);
     mkChunk "chunks/talk_chunk_001.mp3" 65 (Some 130%Q);
     mkChunk "chunks/talk_chunk_002.mp3" 130 None] in
  let trace := transcribeLoop secondCallFails 0 chunks in
  nth_error chunks 1 = Some (mkChunk "chunks/talk_chunk_001.mp3" 65 (Some 130%Q))
  /\ nth_error chunks 2 = Some (mkChunk "chunks/talk_chunk_002.mp3" 130 None)
  /\ nth_error trace 2 = Some (CallTranscribe "chunks/talk_chunk_001.mp3")
  /\ nth_error trace 3
     = Some (AppendToFile
               (chunkText secondCallFails 1
                  (mkChunk "chunks/talk_chunk_001.mp3" 65 (Some 130%Q))
                ++ newline ++ newline))
  /\ nth_error trace 4 = Some (CallTranscribe "chunks/talk_chunk_002.mp3").
Proof.
  intros chunks trace.
  assert (Hk : nth_error chunks 1
               = Some (mkChunk "chunks/talk_chunk_001.mp3" 65 (Some 130%Q)))
    by reflexivity.
  assert (Hnext : nth_error chunks 2
                  = Some (mkChunk "chunks/talk_chunk_002.mp3" 130 None))
    by reflexivity.
  split; [exact Hk|]. split; [exact Hnext|].
  exact (entry_is_appended_before_the_next_call
           secondCallFails chunks 1 _ _ Hk Hnext).
Defined.

(** X25: with [transcribeAudioFile] as the remote call, every chunk leaves
    exactly one entry, and an entry is the chunk's header followed by one of
    three things: the text the service sent; "[ERROR: Transcription error:
    ...]"; or, when the request failed with a response that holds no
    [data.error], "[ERROR: <message of the TypeError>]". *)
Theorem every_entry_is_a_transcription_or_an_error_marker :
  forall (extname toLowerCase : string -> string) (toFixed2 : Q -> string)
         (worlds : nat -> AudioFileWorld)
         (chunks : list Chunk) (i : nat) (chunk : Chunk),
    nth_error chunks i = Some chunk ->
    let remote := fun k file =>
                    snd (transcribeAudioFile extname toLowerCase toFixed2
                                             (worlds k) file) in
    let written := fileWrites (transcribeLoop remote 0 chunks) in
    List.length written = List.length chunks
    /\ ((exists text,
            reply (worlds i) = PostOk text
            /\ nth_error written i
               = Some ((chunkHeader chunk ++ newline ++ text)
                       ++ newline ++ newline))
        \/ (exists detail,
               nth_error written i
               = Some ((chunkHeader chunk ++ newline
                        ++ "[ERROR: " ++ ("Transcription error: " ++ detail)
                        ++ "]")
                       ++ newline ++ newline))
        \/ (exists typeError,
               reply (worlds i) = PostRefusedWithoutError typeError
               /\ nth_error written i
                  = Some ((chunkHeader chunk ++ newline
                           ++ "[ERROR: " ++ typeError ++ "]")
                          ++ newline ++ newline))).
Proof.
  intros extname toLowerCase toFixed2 worlds chunks i chunk Hchunk
         remote written.
  subst written. split; [apply fileWrites_transcribeLoop_length|].
  rewrite (fileWrites_transcribeLoop remote chunks 0 i chunk Hchunk).
  cbn [Nat.add]. unfold chunkText.
  destruct (remote i (path chunk)) as [text|message] eqn:E; subst remote.
  - left. exists text. split; [|reflexivity].
    apply transcription_needs_every_step in E. tauto.
  - right. apply failure_message_shape in E.
    destruct E as [[detail ->]|[Hreply _]].
    + left. exists detail. reflexivity.
    + right. exists message. split; [exact Hreply | reflexivity].
Qed.

Lemma every_entry_is_a_transcription_or_an_error_marker_witness :
  let chunks := [mkChunk "chunks/talk_chunk_000.mp3" 0 (Some 65%Q);
                 mkChunk "chunks/talk_chunk_001.mp3" 65 None] in
  let worlds := fun k : nat =>
                  mkAudioFileWorld true 1000 None None None
                    (if k =? 1
                     then PostRefusedWithoutError
                            "Cannot read properties of undefined (reading 'message')"
                     else PostOk "hello")
                    true None in
  let remote := fun k file =>
                  snd (transcribeAudioFile (fun _ => ".mp3") (fun s => s)
                                           (fun _ => "0.00") (worlds k) file) in
  let written := fileWrites (transcribeLoop remote 0 chunks) in
  nth_error chunks 1 = Some (mkChunk "chunks/talk_chunk_001.mp3" 65 None)
  /\ List.length written = 2
  /\ nth_error written 1
     = Some ("[01:05 - end]" ++ newline
             ++ "[ERROR: Cannot read properties of undefined (reading 'message')]"
             ++ newline ++ newline).
Proof.
  intros chunks worlds remote written.
  assert (Hchunk : nth_error chunks 1
                   = Some (mkChunk "chunks/talk_chunk_001.mp3" 65 None))
    by reflexivity.
  split; [exact Hchunk|].
  destruct (every_entry_is_a_transcription_or_an_error_marker
              (fun _ => ".mp3") (fun s => s) (fun _ => "0.00")
              worlds chunks 1 _ Hchunk) as [Hlen _].
  split; [exact Hlen | reflexivity].
Defined.

End LoopProperties.

(** ** Properties of [testSilenceDetection] *)

Section DetectionProperties.
Local Open Scope string_scope.
Local Open Scope nat_scope.

Lemma detection_runs_accumulate (events : list DetectionEvent) :
  forall st,
    Forall (fun ev => detectionIndex ev < List.length testParams) events ->
    testsPromise st = Pending ->
    completedTests st + List.length events < List.length testParams ->
    let final := fold_left onDetectionEvent events st in
    testsPromise final = Pending
    /\ completedTests final = completedTests st + List.length events
    /\ results final = (results st ++ reportedResults events)%list.
Proof.
  induction events as [|ev rest IH]; intros st Hvalid Hpending Hcount final.
  - subst final. cbn. rewrite app_nil_r.
    repeat split; [exact Hpending | lia].
  - inversion Hvalid as [|? ? Hev Hrest]; subst.
    cbn [List.length] in Hcount. subst final. cbn [fold_left].
    assert (Hstep : testsPromise (onDetectionEvent st ev) = Pending
                    /\ completedTests (onDetectionEvent st ev)
                       = S (completedTests st)
                    /\ results (onDetectionEvent st ev)
                       = (results st ++ reportedResults [ev])%list).
    { unfold onDetectionEvent.
      replace (S (completedTests st) =? List.length testParams) with false
        by (symmetry; apply Nat.eqb_neq; lia).
      destruct ev as [index found|index message]; cbn [detectionIndex] in Hev;
        destruct (nth_error testParams index) eqn:E;
        try (apply nth_error_None in E; lia);
        cbn [testsPromise completedTests results reportedResults];
        rewrite ?E, ?app_nil_r; repeat split; assumption. }
    destruct Hstep as [Hp [Hc Hr]].
    destruct (IH (onDetectionEvent st ev) Hrest Hp ltac:(lia)) as [Hp' [Hc' Hr']].
    rewrite Hp', Hc', Hr', Hc, Hr. cbn [List.length].
    split; [reflexivity|]. split; [lia|].
    rewrite <- app_assoc. f_equal.
    destruct ev as [index found|index message]; cbn [reportedResults];
      [destruct (nth_error testParams index)|]; reflexivity.
Qed.

(** X26: Test mode never gives up on a failing run: once each of the four
    detection runs has reported, by ['end'] or by ['error'] and in any order,
    the promise is resolved, never rejected, and holds one result per run
    that ended, in the order in which they ended. *)
Theorem testSilenceDetection_resolves_with_the_runs_that_ended :
  forall events : list DetectionEvent,
    Forall (fun ev => detectionIndex ev < List.length testParams) events ->
    List.length events = List.length testParams ->
    testsPromise (testSilenceDetection events) = Fulfilled
    /\ results (testSilenceDetection events) = reportedResults events.
Proof.
  intros events Hvalid Hlen.
  destruct (exists_last (l := events)) as [front [final ->]];
    [intro E; rewrite E in Hlen; discriminate Hlen|].
  apply Forall_app in Hvalid. destruct Hvalid as [Hfront Hfinal].
  inversion Hfinal as [|? ? Hev _]; subst.
  rewrite length_app in Hlen. cbn [List.length] in Hlen.
  unfold testSilenceDetection. rewrite fold_left_app. cbn [fold_left].
  destruct (detection_runs_accumulate front (mkDetectionState [] 0 Pending)
              Hfront eq_refl ltac:(cbn [completedTests]; lia))
    as [Hp [Hc Hr]].
  cbn [completedTests results app Nat.add] in Hc, Hr.
  set (st := fold_left onDetectionEvent front (mkDetectionState [] 0 Pending))
    in *.
  assert (Hsplit : reportedResults (front ++ [final])
                   = (reportedResults front ++ reportedResults [final])%list).
  { clear. induction front as [|ev rest IH]; [reflexivity|].
    cbn [app reportedResults].
    destruct ev as [index found|index message];
      [destruct (nth_error testParams index)|]; rewrite IH; reflexivity. }
  rewrite Hsplit. unfold onDetectionEvent. rewrite Hc, Hp.
  replace (S (List.length front) =? List.length testParams) with true
    by (symmetry; apply Nat.eqb_eq; lia).
  destruct final as [index found|index message]; cbn [detectionIndex] in Hev;
    destruct (nth_error testParams index) eqn:E;
    try (apply nth_error_None in E; lia);
    cbn [testsPromise results reportedResults settle];
    rewrite ?E, ?Hr, ?app_nil_r; split; reflexivity.
Qed.

Lemma testSilenceDetection_resolves_with_the_runs_that_ended_witness :
  let events := [TestEnd 2 [3; 8]%Q; TestError 0 "boom";
                 TestEnd 3 []; TestEnd 1 [3]%Q] in
  Forall (fun ev => detectionIndex ev < List.length testParams) events
  /\ List.length events = List.length testParams
  /\ testsPromise (testSilenceDetection events) = Fulfilled
  /\ results (testSilenceDetection events) = reportedResults events.
Proof.
  intro events.
  assert (Hvalid : Forall (fun ev => detectionIndex ev < List.length testParams)
                          events)
    by (repeat constructor; cbn; lia).
  assert (Hlen : List.length events = List.length testParams) by reflexivity.
  split; [exact Hvalid|]. split; [exact Hlen|].
  exact (testSilenceDetection_resolves_with_the_runs_that_ended
           events Hvalid Hlen).
Defined.

End DetectionProperties.
